(** * Ground-state energy density of the transverse-field Ising model

    A shallow embedding of the notebook
    [Numeric integration and energy density for Ising model.ipynb].

    The notebook evaluates
      e(g) = (1/pi) * integral_0^pi sqrt((g - cos x)^2 + sin(x)^2) dx
    by handing the lambda [y] to [scipy.integrate.quad] and scaling the
    first component of the returned pair by [1/pi].

    Conventions of the embedding.
    - Python floats are idealised as real numbers ([R]); the decimal values
      a run of the notebook printed are kept apart, as exact rationals, in
      [Module Recorded].
    - [scipy.integrate.quad] is library code that the notebook only calls.
      It is a parameter [quad] of the model.  A call either returns the
      pair [(estimate, abserr)], possibly after issuing warnings, or raises.
      The notebook never looks at the warnings; which of them Python's
      warning filter displays is not part of the model.
    - The notebook's names [i], [g], [I], [e] and [result] are global
      variables of one kernel; they live in the record [Env] together with
      what the cells printed.  The one name [g] holds a float in cells 6
      and 8 and a numpy array in cell 10.
    - Statements about the numbers an engine produces name the contract
      they ask of it (exactness on constants, positivity, monotonicity, an
      error tolerance); the exact energies themselves are enclosed by
      checked certificates, see [Module Certificate]. *)

From Stdlib Require Import Reals Lra Lia List ZArith QArith Qabs Qround Qreals String.
From Stdlib Require Import Machin FunctionalExtensionality Epsilon.
Import ListNotations.

Local Open Scope R_scope.

(** ** Values printed by the recorded run of the notebook *)

Module Recorded.

(** Cell 2, the text printed for [sym.simplify(...)]:
    [sqrt(g**2 - 2*g*cos(x) + 1)]. *)
Definition simplified_radicand (g x : R) : R := g ^ 2 - 2 * g * cos x + 1.

Definition cell6_e : Q := 1.2732395447351625%Q.

(** Cell 8: the 21 lines printed by the sweep loop. *)
Definition cell8_output : list Q :=
  [ 1.0;
    1.002501566421584;
    1.0100252539845789;
    1.0226295149208584;
    1.0404170862358302;
    1.063544409973372;
    1.0922385835544972;
    1.1268286675869728;
    1.1678095085207265;
    1.2160009141097237;
    1.2732395447351625;
    1.342864022725127;
    1.4196192748982297;
    1.5008232436750164;
    1.585188300053977;
    1.6719262215361952;
    1.760508122204593;
    1.8505593362793402;
    1.9418043043913793;
    2.034034558740953;
    2.1270888199467435 ]%Q.

End Recorded.

(** ** Python-level plumbing *)

(** What a call into library code can do: return a value (after issuing
    zero or more warnings) or raise. *)
Inductive Outcome (A : Type) : Type :=
| Return (v : A) (warnings : list string)
| Raise (exn : string).
Arguments Return {A} v warnings.
Arguments Raise {A} exn.

(** A line on standard output: [print(I)] shows a pair, [print(e)] a number. *)
Inductive Line : Type :=
| LPair (p : R * R)
| LNum (e : R).

(** What the global name [g] holds: the float of [g = 1.0] and
    [g = 0.1*i] (cells 6 and 8), or the numpy array of [g = np.zeros(21)]
    (cell 10).  Binding one replaces the other. *)
Inductive Value : Type :=
| Num (r : R)
| Arr (a : list R).

(** The kernel's globals and its standard output.  [var_i], [var_g],
    [var_I], [var_e] are the notebook's [i], [g], [I], [e]; [arr_result]
    is the numpy array [result] of cell 10. *)
Record Env : Type := mkEnv {
  var_i : Z;
  var_g : Value;
  var_I : R * R;
  var_e : R;
  arr_result : list R;
  stdout : list Line
}.

Definition set_i (v : Z) (s : Env) : Env :=
  mkEnv v (var_g s) (var_I s) (var_e s) (arr_result s) (stdout s).
Definition set_g (v : Value) (s : Env) : Env :=
  mkEnv (var_i s) v (var_I s) (var_e s) (arr_result s) (stdout s).
Definition set_I (v : R * R) (s : Env) : Env :=
  mkEnv (var_i s) (var_g s) v (var_e s) (arr_result s) (stdout s).
Definition set_e (v : R) (s : Env) : Env :=
  mkEnv (var_i s) (var_g s) (var_I s) v (arr_result s) (stdout s).
Definition set_arr_result (v : list R) (s : Env) : Env :=
  mkEnv (var_i s) (var_g s) (var_I s) (var_e s) v (stdout s).
Definition print (l : Line) (s : Env) : Env :=
  mkEnv (var_i s) (var_g s) (var_I s) (var_e s) (arr_result s) (stdout s ++ [l]).

(** A fresh kernel: nothing printed yet. *)
Definition fresh : Env := mkEnv 0 (Num 0) (0, 0) 0 [] [].

(** Running a cell: it finishes, or an uncaught exception stops it and
    leaves the kernel as it was at that moment. *)
Inductive Run : Type :=
| Done (s : Env)
| Aborted (exn : string) (s : Env).

Definition and_then (r : Run) (k : Env -> Run) : Run :=
  match r with
  | Done s => k s
  | Aborted exn s => Aborted exn s
  end.

Notation "r >>= k" := (and_then r k) (at level 50, left associativity).

(** [range(lo, hi)]. *)
Definition range (lo hi : Z) : list Z :=
  map (fun k => (lo + Z.of_nat k)%Z) (seq 0 (Z.to_nat (hi - lo))).

(** [for i in idx: body]. *)
Fixpoint for_in (idx : list Z) (body : Z -> Env -> Run) (s : Env) : Run :=
  match idx with
  | [] => Done s
  | i :: rest => body i (set_i i s) >>= for_in rest body
  end.

(** A boolean test on two lists, position by position. *)
Fixpoint all2 {A B : Type} (f : A -> B -> bool) (l1 : list A) (l2 : list B) : bool :=
  match l1, l2 with
  | [], [] => true
  | a :: t1, b :: t2 => f a b && all2 f t1 t2
  | _, _ => false
  end.

(** [np.zeros(n)]. *)
Definition zeros (n : nat) : list R := repeat 0 n.

(** Position addressed by index [i] in an array of length [len]: numpy
    counts a negative index from the end and rejects anything else out of
    range. *)
Definition index_of (len : nat) (i : Z) : option nat :=
  if ((0 <=? i) && (i <? Z.of_nat len))%Z then Some (Z.to_nat i)
  else if ((- Z.of_nat len <=? i) && (i <? 0))%Z then Some (Z.to_nat (Z.of_nat len + i))
  else None.

Fixpoint update (l : list R) (n : nat) (v : R) : list R :=
  match l, n with
  | [], _ => []
  | _ :: t, O => v :: t
  | h :: t, S k => h :: update t k v
  end.

(** [a[i]] and [a[i] = v]; [None] is numpy's IndexError. *)
Definition getitem (a : list R) (i : Z) : option R :=
  match index_of (List.length a) i with
  | Some n => nth_error a n
  | None => None
  end.

Definition setitem (a : list R) (i : Z) (v : R) : option (list R) :=
  match index_of (List.length a) i with
  | Some n => Some (update a n v)
  | None => None
  end.

(** ** The integrand *)

(** The expression under the square root. *)
Definition radicand (g x : R) : R := (g - cos x) ^ 2 + sin x ^ 2.

(** A square root that yields a real number only for a non-negative
    argument; [None] stands for the negative-radicand failure. *)
Definition checked_sqrt (r : R) : option R :=
  if Rle_dec 0 r then Some (sqrt r) else None.

(** [y = lambda x: sqrt((g-cos(x))**2 + sin(x)**2)], with the global [g]
    it reads made explicit. *)
Definition y (g : R) : R -> option R :=
  fun x => checked_sqrt (radicand g x).

(** The integrand as a plain real function, in the spec's words:
    [integrand(g, x) = sqrt((g - cos x)^2 + sin(x)^2)]. *)
Definition integrand (g x : R) : R := sqrt (radicand g x).

(** The simplified integrand cell 2 prints. *)
Definition y_simplified (g : R) : R -> option R :=
  fun x => checked_sqrt (Recorded.simplified_radicand g x).

(** ** The notebook's cells, over an arbitrary quadrature engine *)

Definition Engine : Type := (R -> option R) -> R -> R -> Outcome (R * R).

Section Notebook.

(** [integrate.quad(f, a, b)] with the library's default tolerances. *)
Variable quad : Engine.

(** The closure [y] as the engine calls it: it looks the global [g] up at
    the time of the call and computes with the float it finds there; with
    an array in [g] the expression is not a real number. *)
Definition y_of (v : Value) : R -> option R :=
  match v with
  | Num g => y g
  | Arr _ => fun _ => None
  end.

(** [I = integrate.quad(y, 0, pi)] as executed in environment [s]. *)
Definition call_quad (s : Env) : Outcome (R * R) := quad (y_of (var_g s)) 0 PI.

(** [y = lambda ...; I = integrate.quad(y, 0, pi)]: a raised exception
    stops the cell, a returned pair is bound to [I] whatever warnings
    came with it: the notebook does not look at them. *)
Definition assign_I (s : Env) : Run :=
  match call_quad s with
  | Return p _ => Done (set_I p s)
  | Raise exn => Aborted exn s
  end.

(** [e = (1/pi)*I[0]]. *)
Definition assign_e (s : Env) : Env := set_e ((1 / PI) * fst (var_I s)) s.

(** Cell 6. *)
Definition cell6 (s : Env) : Run :=
  assign_I (set_g (Num 1) s) >>= fun s1 =>
  let s2 := print (LPair (var_I s1)) s1 in
  let s3 := assign_e s2 in
  Done (print (LNum (var_e s3)) s3).

(** Cell 8: the body of the loop and the loop. *)
Definition cell8_body (i : Z) (s : Env) : Run :=
  assign_I (set_g (Num (0.1 * IZR i)) s) >>= fun s1 =>
  let s2 := assign_e s1 in
  Done (print (LNum (var_e s2)) s2).

Definition sweep_loop (idx : list Z) (s : Env) : Run := for_in idx cell8_body s.

Definition cell8 (s : Env) : Run := sweep_loop (range 0 21) s.

(** The value a cell gets for the integrand [f]: [(1/pi)*I[0]] when the
    engine returns, nothing when it raises. *)
Definition energy_of (f : R -> option R) : option R :=
  match quad f 0 PI with
  | Return p _ => Some ((1 / PI) * fst p)
  | Raise _ => None
  end.

(** The value the sweep prints for one [g]. *)
Definition energy (g : R) : option R := energy_of (y g).

(** Cell 10: the same sweep, stored in preallocated arrays.  The name [g]
    is rebound to an array there, so the closure reads [g[i]]; a float in
    [g] could not be indexed. *)
Definition fill_g_body (i : Z) (s : Env) : Run :=
  match var_g s with
  | Arr a =>
      match setitem a i (0.1 * IZR i) with
      | Some a' => Done (set_g (Arr a') s)
      | None => Aborted "IndexError" s
      end
  | Num _ => Aborted "TypeError" s
  end.

Definition cell10_body (i : Z) (s : Env) : Run :=
  match var_g s with
  | Num _ => Aborted "TypeError" s
  | Arr a =>
      match getitem a i with
      | None => Aborted "IndexError" s
      | Some gi =>
          match quad (y gi) 0 PI with
          | Raise exn => Aborted exn s
          | Return p _ =>
              let s1 := assign_e (set_I p s) in
              match setitem (arr_result s1) i (var_e s1) with
              | Some a' => Done (set_arr_result a' s1)
              | None => Aborted "IndexError" s1
              end
          end
      end
  end.

Definition cell10 (s : Env) : Run :=
  let s0 := set_g (Arr (zeros 21)) (set_arr_result (zeros 21) s) in
  for_in (range 0 21) fill_g_body s0 >>= for_in (range 0 21) cell10_body.

End Notebook.

(** ** The sweep as a function *)

(** [g = 0.1*i]. *)
Definition g_of (i : Z) : R := 0.1 * IZR i.

(** The sweep in the spec's words: for each [g], in order, record
    [(g, estimate / pi)]; an engine call that raises leaves no result. *)
Fixpoint sweep (quad : Engine) (gs : list R) : option (list (R * R)) :=
  match gs with
  | [] => Some []
  | g :: rest =>
      match energy quad g, sweep quad rest with
      | Some e, Some l => Some ((g, e) :: l)
      | _, _ => None
      end
  end.

Definition lines_of (l : list (R * R)) : list Line :=
  map (fun ge => LNum (snd ge)) l.

(** The sampled values [g = 0.1*i], [i] in [range(0, 21)]. *)
Definition g_values : list R := map (fun i => 0.1 * IZR i) (range 0 21).

(** ** Contracts a quadrature engine may satisfy

    Nothing below is assumed of [quad] globally; each theorem names the
    contract it needs. *)

(** [f] yields the real value [h x] at every point of [[a, b]]. *)
Definition defined_on (f : R -> option R) (h : R -> R) (a b : R) : Prop :=
  forall x, a <= x <= b -> f x = Some (h x).

(** The engine returns whenever every evaluation of the integrand on the
    interval succeeds. *)
Definition completes (quad : Engine) : Prop :=
  forall f a b, a <= b -> (forall x, a <= x <= b -> f x <> None) ->
    exists p ws, quad f a b = Return p ws.


(** The estimate of a non-negative integrand is non-negative. *)
Definition positive (quad : Engine) : Prop :=
  forall f h a b p ws, a <= b -> defined_on f h a b ->
    (forall x, a <= x <= b -> 0 <= h x) ->
    quad f a b = Return p ws -> 0 <= fst p.

(** A pointwise larger integrand gets a larger estimate. *)
Definition monotone (quad : Engine) : Prop :=
  forall f1 h1 f2 h2 a b p1 ws1 p2 ws2, a <= b ->
    defined_on f1 h1 a b -> defined_on f2 h2 a b ->
    (forall x, a <= x <= b -> h1 x <= h2 x) ->
    quad f1 a b = Return p1 ws1 -> quad f2 a b = Return p2 ws2 ->
    fst p1 <= fst p2.

(** The estimate is the integral: it equals [F b - F a] for every
    antiderivative [F] of the integrand on [[a, b]]. *)
Definition exact_at (quad : Engine) (h : R -> R) (f : R -> option R) (a b : R) : Prop :=
  forall F, antiderivative h F a b ->
    exists err ws, quad f a b = Return (F b - F a, err) ws.

(** The estimate is within the reported error bound of the integral. *)
Definition accurate_at (quad : Engine) (h : R -> R) (f : R -> option R) (a b : R) : Prop :=
  forall F, antiderivative h F a b ->
    exists est err ws, quad f a b = Return (est, err) ws /\
                       Rabs (est - (F b - F a)) <= err.

(** The estimate is within [delta] of the integral. *)
Definition within (delta : R) (quad : Engine) (h : R -> R) (f : R -> option R) (a b : R) : Prop :=
  forall F, antiderivative h F a b ->
    exists est err ws, quad f a b = Return (est, err) ws /\
                       Rabs (est - (F b - F a)) <= delta.

(** The estimate is within [delta] of the integral at each of the 21
    sampled values of [g]. *)
Definition tolerant (delta : R) (quad : Engine) : Prop :=
  forall i, (0 <= i <= 20)%Z ->
    within delta quad (integrand (0.1 * IZR i)) (y (0.1 * IZR i)) 0 PI.

(** How an engine can tell its caller that the refinement budget ran out:
    by a warning issued next to the pair it returns, or by raising. *)
Definition NonConvergence : string := "NonConvergence".

Definition signals_nonconvergence (o : Outcome (R * R)) : Prop :=
  match o with
  | Return _ ws => In NonConvergence ws
  | Raise exn => exn = NonConvergence
  end.

Definition final_env (r : Run) : Env :=
  match r with
  | Done s => s
  | Aborted _ s => s
  end.

(** The driver validates a sweep point when a non-convergence signal for
    that point keeps its estimate off the output. *)
Definition driver_validates (quad : Engine) : Prop :=
  forall i s, signals_nonconvergence (quad (y (0.1 * IZR i)) 0 PI) ->
    stdout (final_env (cell8_body quad i s)) = stdout s.

(** ** Engines used to exercise the model *)

Module Doubles.

(** One evaluation at the midpoint. *)
Definition midpoint : Engine :=
  fun f a b =>
    match f ((a + b) / 2) with
    | Some v => Return ((b - a) * v, 0) []
    | None => Raise "integrand failed"
    end.

(** An engine that gives up at once but still returns a pair, with the
    non-convergence signal as a warning. *)
Definition exhausted : Engine :=
  fun f a b => Return (0, 1) [NonConvergence].

(** An engine that gives up at once by raising. *)
Definition raising : Engine :=
  fun f a b => Raise NonConvergence.

(** The ideal engine: its estimate is the increment [F b - F a] of any
    antiderivative [F] of the integrand on [[a, b]], when there is one. *)
Definition newton : Engine :=
  fun f a b =>
    Return (epsilon (inhabits 0)
              (fun v => forall h F, defined_on f h a b ->
                                    antiderivative h F a b -> v = F b - F a),
            0) [].

End Doubles.

(** ** Agreement to a number of significant decimal digits *)

Module Digits.

Local Open Scope Z_scope.

(** Decimal exponent of a positive rational [n/d]: the [k] with
    [10^k <= n/d < 10^(k+1)]. *)
Definition pow10 (k : Z) : Q :=
  if 0 <=? k then inject_Z (10 ^ k) else (1 # Z.to_pos (10 ^ (- k)))%Q.

(** Number of decimal digits of [n], less one. *)
Fixpoint log10_upto (fuel : nat) (n : Z) : Z :=
  match fuel with
  | O => 0
  | S fuel' => if n <? 10 then 0 else 1 + log10_upto fuel' (n / 10)
  end.

Definition log10 (n : Z) : Z := log10_upto (Z.to_nat (Z.log2_up n)) n.

Definition exponent (q : Q) : Z :=
  let n := Z.abs (Qnum q) in
  let d := Zpos (Qden q) in
  let k := log10 n - log10 d in
  if Qle_bool (pow10 k) (Qabs q) then k
  else k - 1.

(** Nearest integer, ties away from zero. *)
Definition round_half_up (q : Q) : Z :=
  if Qle_bool 0 q then Qfloor (q + (1 # 2))%Q
  else - Qfloor (- q + (1 # 2))%Q.

(** [q] rounded to [n] significant digits. *)
Definition round_sig (n : Z) (q : Q) : Q :=
  if Qeq_bool q 0 then 0%Q
  else
    let k := exponent q - n + 1 in
    (inject_Z (round_half_up (q / pow10 k)) * pow10 k)%Q.

(** Two numbers agree to [n] significant digits when they round to the
    same [n]-digit decimal and their difference, relative to the second,
    is at most [5 * 10^-n]. *)
Definition agree (n : Z) (a b : Q) : bool :=
  Qeq_bool (round_sig n a) (round_sig n b)
  && Qle_bool (Qabs (a - b)) ((5 # 1) * pow10 (- n) * Qabs b).

Fixpoint agree_all (n : Z) (l1 l2 : list Q) : bool :=
  match l1, l2 with
  | [], [] => true
  | a :: t1, b :: t2 => agree n a b && agree_all n t1 t2
  | _, _ => false
  end.

Fixpoint nondecreasing (l : list Q) : bool :=
  match l with
  | a :: (b :: _) as t => Qle_bool a b && nondecreasing t
  | _ => true
  end.

End Digits.

(** The reference sequence of the end-to-end scenario. *)
Definition reference_sequence : list Q :=
  [ 1.0; 1.00250157; 1.01002525; 1.02262951; 1.04041709; 1.06354441;
    1.09223858; 1.12682867; 1.16780951; 1.21600091; 1.27323954;
    1.34286402; 1.41961927; 1.50082324; 1.58518830; 1.67192622;
    1.76050812; 1.85055934; 1.94180430; 2.03403456; 2.12708882 ]%Q.

(** An antiderivative of the integrand at [g = 1] on [[0, pi]]. *)
Definition primitive_one (x : R) : R := - 4 * cos (x / 2).

(** ** Rational enclosures of [pi] *)

Module Enclosure.

Fixpoint qpow (q : Q) (n : nat) : Q :=
  match n with
  | O => 1%Q
  | S m => (q * qpow q m)%Q
  end.

(** Term [n] of the alternating series
    [pi/4 = 2*atan(1/3) + atan(1/7)]. *)
Definition machin_term (n : nat) : Q :=
  (qpow (-1 # 1) n *
   ((2 # 1) * (qpow (1 # 3) (2 * n + 1) / inject_Z (Z.of_nat (2 * n + 1)))
    + qpow (1 # 7) (2 * n + 1) / inject_Z (Z.of_nat (2 * n + 1))))%Q.

Fixpoint machin_sum (n : nat) : Q :=
  match n with
  | O => machin_term O
  | S m => (machin_sum m + machin_term (S m))%Q
  end.

Definition quarter_pi_lower : Q := Eval vm_compute in Qred (machin_sum 19).
Definition quarter_pi_upper : Q := Eval vm_compute in Qred (machin_sum 18).

Definition pi_lower : Q := 3.14159265358979323%Q.
Definition pi_upper : Q := 3.14159265358979324%Q.

(** Spacing of binary64 numbers in [[1, 2)]. *)
Definition ulp : Q := (1 # (2 ^ 52))%Q.

End Enclosure.

(** ** Certificates for the exact energies

    The integrand is the modulus [|a - b z|] of a polynomial of degree one
    on the unit circle, [z = cos x + i sin x].  If a polynomial [p] with
    real coefficients has a square close to [a - b z], then [|p(z)|^2] is
    close to the integrand, and the integral of [|p(z)|^2] over [[0, pi]] is
    [pi] times the sum of the squares of the coefficients of [p]. *)

(** Complex numbers as pairs, polynomials as coefficient lists. *)
Module Poly.

Definition cadd (u v : R * R) : R * R := (fst u + fst v, snd u + snd v).
Definition cmul (u v : R * R) : R * R :=
  (fst u * fst v - snd u * snd v, fst u * snd v + snd u * fst v).
(** The point of the unit circle at angle [t]. *)
Definition cis (t : R) : R * R := (cos t, sin t).
(** Squared modulus and modulus. *)
Definition cnorm2 (u : R * R) : R := fst u * fst u + snd u * snd u.
Definition cnorm (u : R * R) : R := sqrt (cnorm2 u).

Fixpoint padd (p q : list R) : list R :=
  match p, q with
  | [], _ => q
  | _, [] => p
  | a :: p', b :: q' => (a + b) :: padd p' q'
  end.

Definition pscale (a : R) (p : list R) : list R := map (Rmult a) p.

Fixpoint pmul (p q : list R) : list R :=
  match p with
  | [] => []
  | a :: p' => padd (pscale a q) (0 :: pmul p' q)
  end.

Definition psub (p q : list R) : list R := padd p (pscale (-1) q).

(** Value of the polynomial [p] at [z], by Horner's rule. *)
Fixpoint peval (p : list R) (z : R * R) : R * R :=
  match p with
  | [] => (0, 0)
  | a :: p' => cadd (a, 0) (cmul z (peval p' z))
  end.

(** Sum of the absolute values of the coefficients. *)
Fixpoint l1 (p : list R) : R :=
  match p with
  | [] => 0
  | a :: p' => Rabs a + l1 p'
  end.

(** Sum of the squares of the coefficients. *)
Fixpoint sumsq (p : list R) : R :=
  match p with
  | [] => 0
  | a :: p' => a * a + sumsq p'
  end.

End Poly.

(** Trigonometric sums [sum_n p_n cos((k+n) x)], their sine counterparts
    and antiderivatives. *)
Module Trig.

Fixpoint csum (p : list R) (k : nat) (x : R) : R :=
  match p with
  | [] => 0
  | a :: p' => a * cos (INR k * x) + csum p' (S k) x
  end.

Fixpoint ssum (p : list R) (k : nat) (x : R) : R :=
  match p with
  | [] => 0
  | a :: p' => a * sin (INR k * x) + ssum p' (S k) x
  end.

(** An antiderivative of [csum p k], for [k > 0]. *)
Fixpoint sint (p : list R) (k : nat) (x : R) : R :=
  match p with
  | [] => 0
  | a :: p' => a * (sin (INR k * x) / INR k) + sint p' (S k) x
  end.

(** An antiderivative of [x |-> |p(cis x)|^2]. *)
Fixpoint energy_primitive (p : list R) (x : R) : R :=
  match p with
  | [] => 0
  | a :: p' => a * a * x + 2 * a * sint p' 1 x + energy_primitive p' x
  end.

End Trig.

(** The same polynomial arithmetic on integers, in fixed point, and the
    certificate computed from the binomial series. *)
Module Certificate.

Local Open Scope Z_scope.

Fixpoint paddZ (p q : list Z) : list Z :=
  match p, q with
  | [], _ => q
  | _, [] => p
  | a :: p', b :: q' => (a + b) :: paddZ p' q'
  end.

Definition pscaleZ (a : Z) (p : list Z) : list Z := map (Z.mul a) p.

Fixpoint pmulZ (p q : list Z) : list Z :=
  match p with
  | [] => []
  | a :: p' => paddZ (pscaleZ a q) (0 :: pmulZ p' q)
  end.

Definition psubZ (p q : list Z) : list Z := paddZ p (pscaleZ (-1) q).

Fixpoint l1Z (p : list Z) : Z :=
  match p with
  | [] => 0
  | a :: p' => Z.abs a + l1Z p'
  end.

Fixpoint sumsqZ (p : list Z) : Z :=
  match p with
  | [] => 0
  | a :: p' => a * a + sumsqZ p'
  end.

(** Fixed-point scale: coefficients are multiples of [10^-13], squares
    multiples of [10^-26]. *)
Definition quantum : Z := 10 ^ 25.
Definition scale : Z := 10 * quantum.

(** The polynomial [ta - tb z] whose modulus on the unit circle is
    [scale] times the integrand at [g = i/10]; the larger coefficient
    comes first, so that its square root has a convergent power series. *)
Definition target_of (u i : Z) : Z * Z :=
  if i <=? 10 then (10 * u, u * i) else (u * i, 10 * u).

Definition target (i : Z) : Z * Z := target_of quantum i.

(** Truncated binomial series of the square root of [ta - tb z], in
    fixed point. *)
Fixpoint series (ta tb : Z) (n : Z) (prev : Z) (fuel : nat) : list Z :=
  match fuel with
  | O => []
  | S fuel' =>
      let cur := (prev * tb * (2 * n - 3)) / (ta * (2 * n)) in
      cur :: series ta tb (n + 1) cur fuel'
  end.

Definition root (ta tb : Z) (n : nat) : list Z :=
  let p0 := Z.sqrt ta in p0 :: series ta tb 1 p0 n.

(** Number of terms of the series: the closer [g = i/10] is to 1, the
    slower the series converges. *)
Definition terms (i : Z) : nat :=
  Z.to_nat (12 + 150 / Z.max 1 (Z.abs (10 - i))).

(** Centre and radius, times [scale], of an interval for the exact energy
    at [g = i/10]. *)
Definition centre_radius (i : Z) : Z * Z :=
  let (ta, tb) := target i in
  let p := root ta tb (terms i) in
  (sumsqZ p, l1Z (psubZ (pmulZ p p) [ta; - tb])).

(** An interval, as centre and radius, for the exact energy at
    [g = i/10]: from the closed form [4/pi] at [g = 1], from the
    certificate elsewhere. *)
Definition enclosure (i : Z) : Q * Q :=
  if i =? 10 then (Recorded.cell6_e, Enclosure.ulp)
  else
    let (c, t) := centre_radius i in
    (c # Z.to_pos scale, t # Z.to_pos scale)%Q.

(** Tolerance granted to the engine's estimate of the integral. *)
Definition tolerance : Q := (1 # 1000000)%Q.

(** Half a unit of the sixth significant digit, relative. *)
Definition rel6 : Q := (5 # 1000000)%Q.

(** The enclosures of the 21 sampled values, computed once. *)
Definition enclosures : list (Q * Q) :=
  Eval vm_compute in map enclosure (range 0 21).

(** The enclosure, widened by the tolerance over [pi > 3], lies within
    the relative margin of the reference value [r]. *)
Definition sample_ok_at (enc : Q * Q) (r : Q) : bool :=
  let (c, t) := enc in
  (Qle_bool (r - rel6 * r) (c - t - tolerance / (3 # 1))
   && Qle_bool (c + t + tolerance / (3 # 1)) (r + rel6 * r))%Q.

Definition sample_ok (i : Z) (r : Q) : bool := sample_ok_at (enclosure i) r.

(** How close the recorded outputs are required to be to the exact
    energies. *)
Definition precision : Q := (1 # 1000000000)%Q.

Definition recorded_ok_at (enc : Q * Q) (q : Q) : bool :=
  let (c, t) := enc in
  (Qle_bool (q - c + t) precision && Qle_bool (c - q + t) precision)%Q.

Definition recorded_ok (i : Z) (q : Q) : bool := recorded_ok_at (enclosure i) q.

(** Every later value exceeds every earlier one by more than the two
    relative margins. *)
Definition separated_from (a : Q) (l : list Q) : bool :=
  forallb (fun b => Qle_bool (a + rel6 * a) (b - rel6 * b))%Q l.

Fixpoint separated (l : list Q) : bool :=
  match l with
  | [] => true
  | a :: t => separated_from a t && separated t
  end.

End Certificate.

(** ** Further vocabulary for the properties of the cells *)

Module Faulty.

(** An engine that refuses an integrand vanishing at the lower bound and
    otherwise evaluates at the midpoint. *)
Definition endpoint_shy : Engine :=
  fun f a b =>
    match f a with
    | Some v => if Rle_dec v 0 then Raise "singular endpoint"
                else Doubles.midpoint f a b
    | None => Raise "integrand failed"
    end.

End Faulty.

(** A step by which the reference values guarantee consecutive energies
    of the sweep to differ. *)
Definition least_step : Q := (2 # 1000)%Q.

(** Every later value exceeds every earlier one by at least [m], beyond
    the two relative margins. *)
Definition apart_from (m a : Q) (l : list Q) : bool :=
  forallb (fun b => Qle_bool (a + Certificate.rel6 * a + m)
                             (b - Certificate.rel6 * b))%Q l.

Fixpoint apart (m : Q) (l : list Q) : bool :=
  match l with
  | [] => true
  | a :: t => apart_from m a t && apart m t
  end.

(** ** Name resolution across the cells

    Every cell runs in the one namespace of the kernel.  As far as names
    go, a statement looks a sequence of global names up, in the order
    Python evaluates them, and then binds names.  The imported libraries
    are taken to be installed, and the quadrature engine to evaluate its
    integrand at least once. *)

Module Names.

Local Open Scope string_scope.

(** A simple statement: the names it looks up, then the names it binds. *)
Definition Simple : Type := list string * list string.

Inductive Stmt : Type :=
| Do (st : Simple)
| For (var : string) (iter : list string) (times : nat) (body : list Simple).

Inductive Result : Type :=
| Ran (ns : list string)
| NameError (name : string).

(** Names that need no binding. *)
Definition builtins : list string := ["print"; "range"].

Definition bound (ns : list string) (n : string) : bool :=
  existsb (String.eqb n) ns.

Definition resolves (ns : list string) (n : string) : bool :=
  bound builtins n || bound ns n.

Fixpoint first_unbound (ns : list string) (reads : list string) : option string :=
  match reads with
  | [] => None
  | n :: rest => if resolves ns n then first_unbound ns rest else Some n
  end.

Definition exec_simple (ns : list string) (st : Simple) : Result :=
  match first_unbound ns (fst st) with
  | Some n => NameError n
  | None => Ran (snd st ++ ns)%list
  end.

Fixpoint exec_block (ns : list string) (b : list Simple) : Result :=
  match b with
  | [] => Ran ns
  | st :: rest =>
      match exec_simple ns st with
      | Ran ns' => exec_block ns' rest
      | NameError n => NameError n
      end
  end.

(** [for var in ...: body], the loop variable bound before each pass. *)
Fixpoint exec_loop (times : nat) (var : string) (body : list Simple)
         (ns : list string) : Result :=
  match times with
  | O => Ran ns
  | S k =>
      match exec_block (var :: ns) body with
      | Ran ns' => exec_loop k var body ns'
      | NameError n => NameError n
      end
  end.

Definition exec_stmt (ns : list string) (st : Stmt) : Result :=
  match st with
  | Do s => exec_simple ns s
  | For var iter times body =>
      match first_unbound ns iter with
      | Some n => NameError n
      | None => exec_loop times var body ns
      end
  end.

Fixpoint exec_cell (ns : list string) (c : list Stmt) : Result :=
  match c with
  | [] => Ran ns
  | st :: rest =>
      match exec_stmt ns st with
      | Ran ns' => exec_cell ns' rest
      | NameError n => NameError n
      end
  end.

(** Running cells one after the other: the namespace at the end, or the
    position of the cell that stopped and the name it missed. *)
Inductive Session : Type :=
| Finished (ns : list string)
| Stopped (cell : nat) (name : string).

Fixpoint run_from (k : nat) (ns : list string) (cells : list (list Stmt)) : Session :=
  match cells with
  | [] => Finished ns
  | c :: rest =>
      match exec_cell ns c with
      | Ran ns' => run_from (S k) ns' rest
      | NameError n => Stopped k n
      end
  end.

(** A fresh kernel running the given cells in order. *)
Definition run_all (cells : list (list Stmt)) : Session := run_from 0 [] cells.

(** [sqrt((g - cos(x))**2 + sin(x)**2)] with [x] a global (cells 2, 4). *)
Definition expr_reads : list string := ["sqrt"; "g"; "cos"; "x"; "sin"; "x"].

(** The body of [y], where [x] is the parameter (cells 6, 8). *)
Definition y_reads : list string := ["sqrt"; "g"; "cos"; "sin"].

(** The body of [y] in cell 10, which reads [g[i]]. *)
Definition y_reads10 : list string := ["sqrt"; "g"; "i"; "cos"; "sin"].

Definition cell2 : list Stmt :=
  [ Do ([], ["sym"]);                          (* import sympy as sym *)
    Do (["sym"], ["x"]);                       (* x = sym.Symbol('x') *)
    Do (["sym"], ["g"]);                       (* g = sym.Symbol('g') *)
    Do ("sym" :: expr_reads, ["I"]);           (* I = sym.simplify(sqrt(...)) *)
    Do (["print"; "I"], []) ].                 (* print(I) *)

Definition cell4 : list Stmt :=
  [ Do ([], ["sym"]);
    Do (["sym"], ["x"]);
    Do (["sym"], ["g"]);
    Do ("sym" :: expr_reads, ["I"]);
    (* e = (1/sym.pi)*sym.integrate(I,(x,0,sym.pi)) *)
    Do (["sym"; "sym"; "I"; "x"; "sym"], ["e"]);
    Do (["print"; "e"], []) ].

Definition cell6 : list Stmt :=
  [ Do ([], ["pi"]);                           (* from numpy import pi *)
    Do ([], ["sqrt"; "cos"; "sin"]);           (* from sympy import sqrt, cos, sin *)
    Do ([], ["integrate"]);                    (* from scipy import integrate *)
    Do ([], ["g"]);                            (* g = 1.0 *)
    Do ([], ["y"]);                            (* y = lambda x: ... *)
    (* I = integrate.quad(y, 0, pi) *)
    Do ((["integrate"; "y"; "pi"] ++ y_reads)%list, ["I"]);
    Do (["print"; "I"], []);                   (* print(I) *)
    Do (["pi"; "I"], ["e"]);                   (* e = (1/pi)*I[0] *)
    Do (["print"; "e"], []) ].                 (* print(e) *)

Definition cell8 : list Stmt :=
  [ Do ([], ["pi"]);
    Do ([], ["sqrt"; "cos"; "sin"]);
    Do ([], ["integrate"]);
    For "i" ["range"] 21
      [ (["i"], ["g"]);                        (* g = 0.1*i *)
        ([], ["y"]);
        ((["integrate"; "y"; "pi"] ++ y_reads)%list, ["I"]);
        (["pi"; "I"], ["e"]);
        (["print"; "e"], []) ] ].

Definition cell10 : list Stmt :=
  [ Do ([], ["plt"]);                          (* import matplotlib.pyplot as plt *)
    Do ([], ["np"]);                           (* import numpy as np *)
    Do ([], ["sqrt"; "cos"; "sin"]);
    Do ([], ["integrate"]);
    Do (["np"], ["result"]);                   (* result = np.zeros(21) *)
    Do (["np"], ["g"]);                        (* g = np.zeros(21) *)
    For "i" ["range"] 21
      [ (["i"; "g"; "i"], []) ];               (* g[i] = 0.1*i *)
    For "i" ["range"] 21
      [ ([], ["y"]);
        (* I = integrate.quad(y, 0, np.pi) *)
        ((["integrate"; "y"; "np"] ++ y_reads10)%list, ["I"]);
        (["np"; "I"], ["e"]);                  (* e = (1/np.pi)*I[0] *)
        (["e"; "result"; "i"], []) ];          (* result[i] = e *)
    Do (["plt"; "g"; "result"], []);           (* plt.plot(g,result,linewidth=2) *)
    Do (["plt"], []);                          (* plt.xlabel(...) *)
    Do (["plt"], []);                          (* plt.ylabel(...) *)
    Do (["plt"], []);                          (* plt.title(...) *)
    Do (["plt"], []) ].                        (* plt.show() *)

(** The code cells in the order of the notebook. *)
Definition notebook : list (list Stmt) := [cell2; cell4; cell6; cell8; cell10].

End Names.

(** * Properties *)

(** ** The integrand *)

Lemma radicand_nonneg (g x : R) : 0 <= radicand g x.
Proof.
  unfold radicand.
  apply Rplus_le_le_0_compat; apply pow2_ge_0.
Qed.

Lemma radicand_simplified (g x : R) :
  radicand g x = Recorded.simplified_radicand g x.
Proof.
  unfold radicand, Recorded.simplified_radicand.
  pose proof (sin2_cos2 x) as H. unfold Rsqr in H.
  replace ((g - cos x) ^ 2 + sin x ^ 2)
    with (g ^ 2 - 2 * g * cos x + (sin x * sin x + cos x * cos x)) by ring.
  rewrite H. reflexivity.
Qed.

Lemma checked_sqrt_defined (r : R) : 0 <= r -> checked_sqrt r = Some (sqrt r).
Proof.
  intros Hr. unfold checked_sqrt.
  destruct (Rle_dec 0 r) as [_ | Hn]; [reflexivity | contradiction].
Qed.

Lemma y_defined (g x : R) : y g x = Some (integrand g x).
Proof.
  unfold y, integrand. apply checked_sqrt_defined, radicand_nonneg.
Qed.

Lemma y_defined_on (g a b : R) : defined_on (y g) (integrand g) a b.
Proof. intros x _. apply y_defined. Qed.

Lemma integrand_nonneg (g x : R) : 0 <= integrand g x.
Proof. apply sqrt_pos. Qed.

Lemma y_eq_simplified (g : R) : y g = y_simplified g.
Proof.
  apply functional_extensionality. intros x.
  unfold y, y_simplified. rewrite radicand_simplified. reflexivity.
Qed.

(** ** The midpoint engine meets the contracts *)

Lemma midpoint_inside (a b : R) : a <= b -> a <= (a + b) / 2 <= b.
Proof. intros H. split; lra. Qed.

Lemma midpoint_completes : completes Doubles.midpoint.
Proof.
  intros f a b Hab Hf. unfold Doubles.midpoint.
  destruct (f ((a + b) / 2)) as [v |] eqn:E.
  - exists ((b - a) * v, 0), []. reflexivity.
  - exfalso. apply (Hf _ (midpoint_inside a b Hab)). exact E.
Qed.


Lemma midpoint_positive : positive Doubles.midpoint.
Proof.
  intros f h a b p ws Hab Hf Hh. unfold Doubles.midpoint.
  rewrite (Hf _ (midpoint_inside a b Hab)). intros [= <- _]. simpl.
  apply Rmult_le_pos; [lra | apply Hh, midpoint_inside, Hab].
Qed.

Lemma midpoint_monotone : monotone Doubles.midpoint.
Proof.
  intros f1 h1 f2 h2 a b p1 ws1 p2 ws2 Hab Hf1 Hf2 Hh. unfold Doubles.midpoint.
  rewrite (Hf1 _ (midpoint_inside a b Hab)), (Hf2 _ (midpoint_inside a b Hab)).
  intros [= <- _] [= <- _]. simpl.
  apply Rmult_le_compat_l; [lra | apply Hh, midpoint_inside, Hab].
Qed.

(** ** Safety of the integrand *)

Lemma quad_returns (quad : Engine) (g : R) :
  completes quad -> exists p ws, quad (y g) 0 PI = Return p ws.
Proof.
  intros Hq. apply Hq.
  - left. apply PI_RGT_0.
  - intros x _. rewrite y_defined. discriminate.
Qed.

(** C7: for all real [g] and [x] the radicand is non-negative, so the
    evaluation of the integrand never hits the negative-radicand failure
    and yields the non-negative real [sqrt((g - cos x)^2 + sin(x)^2)],
    whose square is the radicand; hence an engine that returns whenever
    its integrand can be evaluated on the interval returns for every [g]
    on [[0, pi]], cusp or not. *)
Theorem integrand_safe :
  (forall g x : R,
      0 <= radicand g x /\
      y g x = Some (integrand g x) /\
      0 <= integrand g x /\
      integrand g x * integrand g x = radicand g x) /\
  (forall quad : Engine, completes quad ->
      forall g : R, exists p ws, quad (y g) 0 PI = Return p ws).
Proof.
  split.
  - intros g x. repeat split.
    + apply radicand_nonneg.
    + apply y_defined.
    + apply integrand_nonneg.
    + unfold integrand. apply sqrt_sqrt, radicand_nonneg.
  - intros quad Hq g. apply quad_returns, Hq.
Qed.

Lemma integrand_safe_witness :
  completes Doubles.midpoint /\
  exists p ws, Doubles.midpoint (y 1) 0 PI = Return p ws.
Proof.
  split.
  - exact midpoint_completes.
  - exact (proj2 integrand_safe Doubles.midpoint midpoint_completes 1).
Defined.

(** ** The simplified integrand *)

(** C10: the radicand of the notebook's lambda and the radicand cell 2
    prints after simplification are the same real number for all [g] and
    [x]; the two integrands are therefore the same function and every
    engine yields the same energy for both. *)
Theorem simplified_integrand_equivalent (quad : Engine) (g : R) :
  (forall x : R, (g - cos x) ^ 2 + sin x ^ 2 = g ^ 2 - 2 * g * cos x + 1) /\
  (forall x : R, y g x = y_simplified g x) /\
  quad (y g) 0 PI = quad (y_simplified g) 0 PI /\
  energy_of quad (y g) = energy_of quad (y_simplified g).
Proof.
  repeat split.
  - intros x. apply (radicand_simplified g x).
  - intros x. rewrite y_eq_simplified. reflexivity.
  - rewrite y_eq_simplified. reflexivity.
  - rewrite y_eq_simplified. reflexivity.
Qed.

(** ** The sweep loop *)

Section Sweep.

Variable quad : Engine.

Lemma cell8_body_returned (i : Z) (s : Env) (p : R * R) (ws : list string) :
  quad (y (g_of i)) 0 PI = Return p ws ->
  cell8_body quad i s =
  Done (print (LNum ((1 / PI) * fst p))
          (set_e ((1 / PI) * fst p) (set_I p (set_g (Num (g_of i)) s)))).
Proof.
  intros H. unfold cell8_body, assign_I, call_quad. simpl.
  fold (g_of i). rewrite H. reflexivity.
Qed.

Lemma cell8_body_raised (i : Z) (s : Env) (exn : string) :
  quad (y (g_of i)) 0 PI = Raise exn ->
  cell8_body quad i s = Aborted exn (set_g (Num (g_of i)) s).
Proof.
  intros H. unfold cell8_body, assign_I, call_quad. simpl.
  fold (g_of i). rewrite H. reflexivity.
Qed.

Lemma energy_returned (g : R) (p : R * R) (ws : list string) :
  quad (y g) 0 PI = Return p ws -> energy quad g = Some ((1 / PI) * fst p).
Proof. intros H. unfold energy, energy_of. rewrite H. reflexivity. Qed.

Lemma energy_some (g e : R) :
  energy quad g = Some e ->
  exists p ws, quad (y g) 0 PI = Return p ws /\ e = (1 / PI) * fst p.
Proof.
  unfold energy, energy_of. destruct (quad (y g) 0 PI) as [p ws | exn].
  - intros [= <-]. exists p, ws. split; reflexivity.
  - discriminate.
Qed.

Lemma sweep_cons (g : R) (rest : list R) (l : list (R * R)) :
  sweep quad (g :: rest) = Some l ->
  exists e l', energy quad g = Some e /\ sweep quad rest = Some l' /\ l = (g, e) :: l'.
Proof.
  simpl. destruct (energy quad g) as [e |]; [| discriminate].
  destruct (sweep quad rest) as [l' |]; [| discriminate].
  intros [= <-]. exists e, l'. repeat split.
Qed.

Lemma sweep_fst (gs : list R) :
  forall l, sweep quad gs = Some l -> map fst l = gs.
Proof.
  induction gs as [| g rest IH]; intros l H.
  - simpl in H. injection H as <-. reflexivity.
  - apply sweep_cons in H. destruct H as (e & l' & _ & Hrest & ->).
    simpl. rewrite (IH _ Hrest). reflexivity.
Qed.

Lemma sweep_length (gs : list R) (l : list (R * R)) :
  sweep quad gs = Some l -> List.length l = List.length gs.
Proof.
  intros H. rewrite <- (sweep_fst _ _ H). symmetry. apply length_map.
Qed.

Lemma sweep_nth (gs : list R) :
  forall l k g, sweep quad gs = Some l -> nth_error gs k = Some g ->
    exists e, nth_error l k = Some (g, e) /\ energy quad g = Some e.
Proof.
  induction gs as [| g0 rest IH]; intros l k g H Hk.
  - destruct k; discriminate.
  - apply sweep_cons in H. destruct H as (e & l' & He & Hrest & ->).
    destruct k as [| k].
    + simpl in Hk. injection Hk as <-. exists e. split; [reflexivity | exact He].
    + simpl in Hk. simpl. apply (IH _ _ _ Hrest Hk).
Qed.

Lemma sweep_total (gs : list R) :
  (forall g, In g gs -> exists p ws, quad (y g) 0 PI = Return p ws) ->
  exists l, sweep quad gs = Some l.
Proof.
  induction gs as [| g rest IH]; intros H.
  - exists []. reflexivity.
  - destruct (H g (or_introl eq_refl)) as (p & ws & Hq).
    destruct IH as [l Hl]. { intros g' Hin. apply H. right. exact Hin. }
    exists ((g, (1 / PI) * fst p) :: l). simpl.
    rewrite (energy_returned _ _ _ Hq), Hl. reflexivity.
Qed.

(** The loop of cell 8 prints, in order, the second components of the
    spec-level sweep. *)
Lemma sweep_loop_refines (idx : list Z) :
  forall s l, sweep quad (map g_of idx) = Some l ->
    exists s', sweep_loop quad idx s = Done s' /\
               stdout s' = stdout s ++ lines_of l.
Proof.
  induction idx as [| i rest IH]; intros s l H.
  - simpl in H. injection H as <-. exists s. split; [reflexivity |].
    simpl. symmetry. apply app_nil_r.
  - simpl in H. apply sweep_cons in H. destruct H as (e & l' & He & Hrest & ->).
    apply energy_some in He. destruct He as (p & ws & Hq & ->).
    unfold sweep_loop. simpl. rewrite (cell8_body_returned _ _ _ _ Hq). simpl.
    destruct (IH (print (LNum ((1 / PI) * fst p))
                    (set_e ((1 / PI) * fst p)
                       (set_I p (set_g (Num (g_of i)) (set_i i s))))) l' Hrest)
      as (s' & Hrun & Hout).
    exists s'. split; [exact Hrun |].
    rewrite Hout. simpl. rewrite <- app_assoc. reflexivity.
Qed.

(** An engine call that raises stops the loop: what earlier points
    printed stays, nothing is printed for that point or any later one. *)
Lemma sweep_loop_aborts (pre : list Z) :
  forall s l i post exn,
    sweep quad (map g_of pre) = Some l ->
    quad (y (g_of i)) 0 PI = Raise exn ->
    exists s', sweep_loop quad (pre ++ i :: post) s = Aborted exn s' /\
               stdout s' = stdout s ++ lines_of l.
Proof.
  induction pre as [| j rest IH]; intros s l i post exn H Hq.
  - simpl in H. injection H as <-. unfold sweep_loop. simpl.
    rewrite (cell8_body_raised _ _ _ Hq). simpl.
    eexists. split; [reflexivity |]. simpl. symmetry. apply app_nil_r.
  - simpl in H. apply sweep_cons in H. destruct H as (e & l' & He & Hrest & ->).
    apply energy_some in He. destruct He as (p & ws & Hj & ->).
    unfold sweep_loop. simpl. rewrite (cell8_body_returned _ _ _ _ Hj). simpl.
    destruct (IH (print (LNum ((1 / PI) * fst p))
                    (set_e ((1 / PI) * fst p)
                       (set_I p (set_g (Num (g_of j)) (set_i j s)))))
                 l' i post exn Hrest Hq) as (s' & Hrun & Hout).
    exists s'. split; [exact Hrun |].
    rewrite Hout. simpl. rewrite <- app_assoc. reflexivity.
Qed.

End Sweep.

(** ** Non-convergence *)

Lemma exhausted_sweep (gs : list R) :
  sweep Doubles.exhausted gs = Some (map (fun g => (g, (1 / PI) * 0)) gs).
Proof.
  induction gs as [| g rest IH].
  - reflexivity.
  - simpl sweep. rewrite IH. reflexivity.
Qed.

(** C2, as stated, fails: with an engine that reports the exhausted budget
    by a warning and returns its pair, the loop body prints the
    scaled estimate all the same, and the whole sweep prints a line for
    each of its 21 points. *)
Lemma driver_does_not_validate :
  ~ driver_validates Doubles.exhausted /\
  exists s', cell8 Doubles.exhausted fresh = Done s' /\
             stdout s' = map (fun _ => LNum ((1 / PI) * 0)) (range 0 21).
Proof.
  split.
  - intros H. specialize (H 0%Z fresh (or_introl eq_refl)).
    rewrite (cell8_body_returned Doubles.exhausted 0 fresh (0, 1) [NonConvergence] eq_refl) in H.
    discriminate H.
  - destruct (sweep_loop_refines Doubles.exhausted (range 0 21) fresh _
                (exhausted_sweep (map g_of (range 0 21)))) as (s' & Hrun & Hout).
    exists s'. split; [exact Hrun |].
    rewrite Hout. unfold lines_of. rewrite !map_map. reflexivity.
Qed.

Lemma range_bounds (lo hi i : Z) : In i (range lo hi) -> (lo <= i < hi)%Z.
Proof.
  unfold range. intros H. apply in_map_iff in H.
  destruct H as (k & <- & Hk). apply in_seq in Hk. lia.
Qed.

Lemma integrand_at_zero (g : R) : integrand g 0 = Rabs (g - 1).
Proof.
  unfold integrand, radicand. rewrite cos_0, sin_0.
  replace ((g - 1) ^ 2 + 0 ^ 2) with (Rsqr (g - 1)) by (unfold Rsqr; ring).
  apply sqrt_Rsqr_abs.
Qed.

Lemma endpoint_shy_returns (g : R) :
  g <> 1 -> exists p ws, Faulty.endpoint_shy (y g) 0 PI = Return p ws.
Proof.
  intros Hg. unfold Faulty.endpoint_shy. rewrite y_defined, integrand_at_zero.
  destruct (Rle_dec (Rabs (g - 1)) 0) as [Hle | _].
  - exfalso. apply Hg.
    assert (H : Rabs (g - 1) = 0) by (pose proof (Rabs_pos (g - 1)); lra).
    destruct (Req_dec (g - 1) 0) as [E | E]; [lra |].
    apply Rabs_no_R0 in E. contradiction.
  - unfold Doubles.midpoint. rewrite y_defined. eexists. eexists. reflexivity.
Qed.

Lemma endpoint_shy_raises :
  Faulty.endpoint_shy (y 1) 0 PI = Raise "singular endpoint".
Proof.
  unfold Faulty.endpoint_shy. rewrite y_defined, integrand_at_zero.
  replace (1 - 1) with 0 by ring. rewrite Rabs_R0.
  destruct (Rle_dec 0 0) as [_ | H]; [reflexivity | exfalso; lra].
Qed.

(** C2, amended: the driver never looks at how the engine call went.  A
    pair the engine returns is bound to [I], scaled and printed whatever
    warnings came with it; an exception the engine raises stops the cell
    there, so that the lines of the earlier points stay and neither that
    point nor any later one is printed. *)
Theorem driver_uses_every_returned_estimate (quad : Engine) :
  (forall i s p ws, quad (y (0.1 * IZR i)) 0 PI = Return p ws ->
     exists s', cell8_body quad i s = Done s' /\
                var_I s' = p /\
                stdout s' = stdout s ++ [LNum ((1 / PI) * fst p)]) /\
  (forall pre i post s l exn,
     sweep quad (map g_of pre) = Some l ->
     quad (y (0.1 * IZR i)) 0 PI = Raise exn ->
     exists s', sweep_loop quad (pre ++ i :: post) s = Aborted exn s' /\
                stdout s' = stdout s ++ lines_of l).
Proof.
  split.
  - intros i s p ws H. eexists. split.
    + exact (cell8_body_returned quad i s p ws H).
    + repeat split.
  - intros pre i post s l exn Hl H.
    apply sweep_loop_aborts; assumption.
Qed.

Lemma driver_uses_every_returned_estimate_witness :
  (Doubles.exhausted (y (0.1 * IZR 3)) 0 PI = Return (0, 1) [NonConvergence] /\
   exists s', cell8_body Doubles.exhausted 3 fresh = Done s' /\
              var_I s' = (0, 1) /\
              stdout s' = stdout fresh ++ [LNum ((1 / PI) * fst (0, 1))]) /\
  (exists l,
     sweep Faulty.endpoint_shy (map g_of (range 0 10)) = Some l /\
     List.length l = 10%nat /\
     Faulty.endpoint_shy (y (0.1 * IZR 10)) 0 PI = Raise "singular endpoint" /\
     range 0 10 ++ 10%Z :: range 11 21 = range 0 21 /\
     exists s', sweep_loop Faulty.endpoint_shy (range 0 10 ++ 10%Z :: range 11 21) fresh
                = Aborted "singular endpoint" s' /\
                stdout s' = stdout fresh ++ lines_of l).
Proof.
  split.
  - split; [reflexivity |].
    exact (proj1 (driver_uses_every_returned_estimate Doubles.exhausted)
             3%Z fresh (0, 1) [NonConvergence] eq_refl).
  - destruct (sweep_total Faulty.endpoint_shy (map g_of (range 0 10))) as [l Hl].
    { intros g Hin. apply in_map_iff in Hin. destruct Hin as (i & <- & Hin).
      apply range_bounds in Hin. apply endpoint_shy_returns. unfold g_of.
      assert (H : IZR i < IZR 10) by (apply IZR_lt; lia). lra. }
    assert (Hq : Faulty.endpoint_shy (y (0.1 * IZR 10)) 0 PI = Raise "singular endpoint").
    { replace (0.1 * IZR 10) with 1 by lra. exact endpoint_shy_raises. }
    exists l. split; [exact Hl |]. split.
    { rewrite (sweep_length _ _ _ Hl). reflexivity. }
    split; [exact Hq |]. split; [reflexivity |].
    exact (proj2 (driver_uses_every_returned_estimate Faulty.endpoint_shy)
             (range 0 10) 10%Z (range 11 21) fresh l "singular endpoint"%string Hl Hq).
Defined.

(** ** The point [g = 0] *)






(** ** Arrays *)

Lemma index_of_nat (len k : nat) :
  (k < len)%nat -> index_of len (Z.of_nat k) = Some k.
Proof.
  intros H. unfold index_of.
  replace ((0 <=? Z.of_nat k) && (Z.of_nat k <? Z.of_nat len))%Z with true.
  - rewrite Nat2Z.id. reflexivity.
  - symmetry. apply andb_true_intro. split.
    + apply Z.leb_le. lia.
    + apply Z.ltb_lt. lia.
Qed.

Lemma length_update (l : list R) :
  forall n v, List.length (update l n v) = List.length l.
Proof.
  induction l as [| h t IH]; intros n v.
  - reflexivity.
  - destruct n; simpl; [reflexivity | rewrite IH; reflexivity].
Qed.

Lemma firstn_update (l : list R) :
  forall n v, (n < List.length l)%nat ->
    firstn (S n) (update l n v) = firstn n l ++ [v].
Proof.
  induction l as [| h t IH]; intros n v H.
  - simpl in H. lia.
  - destruct n as [| n].
    + reflexivity.
    + simpl in H. change (h :: firstn (S n) (update t n v) = h :: (firstn n t ++ [v])).
      rewrite IH by lia. reflexivity.
Qed.

Lemma update_middle (done rest : list R) (x v : R) :
  update (done ++ x :: rest) (List.length done) v = done ++ v :: rest.
Proof.
  induction done as [| d t IH]; [reflexivity |].
  simpl. rewrite IH. reflexivity.
Qed.

Lemma nth_error_middle (done rest : list R) (g : R) :
  nth_error (done ++ g :: rest) (List.length done) = Some g.
Proof.
  rewrite nth_error_app2 by lia. rewrite Nat.sub_diag. reflexivity.
Qed.

(** ** The array loop of cell 10 *)

Section Arrays.

Variable quad : Engine.

(** With [done] already processed and [gs] still to do, the second loop
    of cell 10 stores the energies of [gs] behind the first
    [length done] entries of [result] and leaves [g] alone. *)
Lemma cell10_loop_refines (gs : list R) :
  forall done s l,
    var_g s = Arr (done ++ gs) ->
    List.length (arr_result s) = List.length (done ++ gs) ->
    sweep quad gs = Some l ->
    exists s',
      for_in (map Z.of_nat (seq (List.length done) (List.length gs)))
             (cell10_body quad) s = Done s' /\
      var_g s' = Arr (done ++ gs) /\
      arr_result s' = firstn (List.length done) (arr_result s) ++ map snd l /\
      stdout s' = stdout s.
Proof.
  induction gs as [| g rest IH]; intros done s l Hg Hlen Hl.
  - simpl in Hl. injection Hl as <-. exists s. simpl. repeat split.
    + exact Hg.
    + rewrite app_nil_r in *. rewrite <- Hlen, firstn_all. reflexivity.
  - apply sweep_cons in Hl. destruct Hl as (e & l' & He & Hrest & ->).
    apply energy_some in He. destruct He as (p & ws & Hq & ->).
    assert (Hk : (List.length done < List.length (arr_result s))%nat).
    { rewrite Hlen, length_app. simpl. lia. }
    simpl seq. simpl map. simpl for_in.
    unfold cell10_body at 1. unfold getitem, setitem. simpl.
    rewrite Hg. cbv iota. rewrite length_app. simpl List.length.
    rewrite index_of_nat by lia.
    rewrite nth_error_middle, Hq. simpl.
    rewrite index_of_nat by exact Hk.
    simpl.
    match goal with
    | |- exists s', for_in _ _ ?s1 = _ /\ _ =>
        destruct (IH (done ++ [g]) s1 l') as (s' & Hrun & Hg' & Hres & Hout)
    end.
    + simpl. rewrite Hg, <- app_assoc. reflexivity.
    + simpl. rewrite length_update, Hlen, <- app_assoc. reflexivity.
    + exact Hrest.
    + exists s'. rewrite length_app in Hrun. simpl in Hrun.
      rewrite Nat.add_1_r in Hrun.
      split; [exact Hrun |]. split; [| split].
      * rewrite Hg', <- app_assoc. reflexivity.
      * rewrite Hres. simpl arr_result.
        rewrite length_app. simpl List.length. rewrite Nat.add_1_r.
        rewrite firstn_update by exact Hk.
        rewrite <- app_assoc. reflexivity.
      * rewrite Hout. reflexivity.
Qed.

(** With the first [length done] entries of [g] set, the first loop of
    cell 10 stores [0.1*i] at the remaining indices. *)
Lemma cell10_fill_loop (m : nat) :
  forall done s,
    var_g s = Arr (done ++ zeros m) ->
    exists s',
      for_in (map Z.of_nat (seq (List.length done) m)) fill_g_body s = Done s' /\
      var_g s' = Arr (done ++ map g_of (map Z.of_nat (seq (List.length done) m))) /\
      arr_result s' = arr_result s /\ stdout s' = stdout s.
Proof.
  induction m as [| m IH]; intros done s Hg.
  - exists s. simpl. repeat split. exact Hg.
  - simpl seq. simpl map. simpl for_in.
    unfold fill_g_body at 1. unfold setitem. simpl.
    rewrite Hg. cbv iota. rewrite length_app. simpl List.length. rewrite repeat_length.
    rewrite index_of_nat by lia.
    simpl.
    match goal with
    | |- exists s', for_in _ _ ?s1 = _ /\ _ =>
        destruct (IH (done ++ [g_of (Z.of_nat (List.length done))]) s1)
          as (s' & Hrun & Hg' & Hres & Hout)
    end.
    + simpl. change (zeros (S m)) with (0 :: zeros m).
      rewrite update_middle, <- app_assoc. reflexivity.
    + exists s'. rewrite length_app in Hrun, Hg'. simpl in Hrun, Hg'.
      rewrite Nat.add_1_r in Hrun, Hg'.
      split; [exact Hrun |]. split; [| split].
      * rewrite Hg', <- app_assoc. reflexivity.
      * rewrite Hres. reflexivity.
      * rewrite Hout. reflexivity.
Qed.

Lemma cell10_fill (s : Env) :
  exists s0,
    for_in (range 0 21) fill_g_body
           (set_g (Arr (zeros 21)) (set_arr_result (zeros 21) s)) = Done s0 /\
    var_g s0 = Arr g_values /\ arr_result s0 = zeros 21 /\ stdout s0 = stdout s.
Proof.
  destruct (cell10_fill_loop 21 [] (set_g (Arr (zeros 21)) (set_arr_result (zeros 21) s))
              eq_refl) as (s0 & Hrun & Hg & Hres & Hout).
  exists s0. repeat split.
  - exact Hrun.
  - rewrite Hg. reflexivity.
  - rewrite Hres. reflexivity.
  - rewrite Hout. reflexivity.
Qed.

Lemma cell10_refines (s : Env) (l : list (R * R)) :
  sweep quad g_values = Some l ->
  exists s', cell10 quad s = Done s' /\
             var_g s' = Arr g_values /\
             arr_result s' = map snd l /\
             stdout s' = stdout s.
Proof.
  intros Hl. unfold cell10.
  destruct (cell10_fill s) as (s0 & Hfill & Hg & Hres & Hout).
  cbv zeta. rewrite Hfill. unfold and_then.
  assert (Hidx : range 0 21 =
                 map Z.of_nat (seq (List.length (@nil R)) (List.length g_values)))
    by reflexivity.
  rewrite Hidx.
  destruct (cell10_loop_refines g_values [] s0 l Hg) as (s' & Hrun & Hg' & Hres' & Hout').
  - rewrite Hres. reflexivity.
  - exact Hl.
  - exists s'. split; [exact Hrun |]. split; [exact Hg' |]. split.
    + rewrite Hres'. reflexivity.
    + rewrite Hout'. exact Hout.
Qed.

End Arrays.

(** ** Enclosing [pi] *)

Lemma Q2R_qpow (q : Q) (n : nat) : Q2R (Enclosure.qpow q n) = Q2R q ^ n.
Proof.
  induction n as [| n IH]; simpl.
  - unfold Q2R. simpl. lra.
  - rewrite Q2R_mult, IH. reflexivity.
Qed.

Lemma Q2R_inject_Z (z : Z) : Q2R (inject_Z z) = IZR z.
Proof. unfold Q2R. simpl. lra. Qed.

Lemma machin_term_R (n : nat) : Q2R (Enclosure.machin_term n) = tg_alt PI_2_3_7_tg n.
Proof.
  unfold Enclosure.machin_term, tg_alt, PI_2_3_7_tg, Ratan_seq.
  assert (Hk : ~ (inject_Z (Z.of_nat (2 * n + 1)) == 0)%Q).
  { unfold Qeq. simpl. lia. }
  rewrite Q2R_mult, Q2R_plus, Q2R_mult, !Q2R_div by exact Hk.
  rewrite !Q2R_qpow, Q2R_inject_Z, <- INR_IZR_INZ.
  replace (Q2R (-1 # 1)) with (-1) by (unfold Q2R; simpl; lra).
  replace (Q2R (2 # 1)) with 2 by (unfold Q2R; simpl; lra).
  replace (Q2R (1 # 3)) with (/ 3) by (unfold Q2R; simpl; lra).
  replace (Q2R (1 # 7)) with (/ 7) by (unfold Q2R; simpl; lra).
  reflexivity.
Qed.

Lemma machin_sum_R (n : nat) :
  Q2R (Enclosure.machin_sum n) = sum_f_R0 (tg_alt PI_2_3_7_tg) n.
Proof.
  induction n as [| n IH].
  - apply machin_term_R.
  - change (Enclosure.machin_sum (S n)) with (Enclosure.machin_sum n + Enclosure.machin_term (S n))%Q.
    rewrite Q2R_plus, IH, machin_term_R. reflexivity.
Qed.

Lemma quarter_pi_bounds : Q2R Enclosure.quarter_pi_lower <= PI / 4 <= Q2R Enclosure.quarter_pi_upper.
Proof.
  assert (Hl : (Enclosure.quarter_pi_lower == Enclosure.machin_sum 19)%Q).
  { apply Qeq_bool_iff. vm_compute. reflexivity. }
  assert (Hu : (Enclosure.quarter_pi_upper == Enclosure.machin_sum 18)%Q).
  { apply Qeq_bool_iff. vm_compute. reflexivity. }
  rewrite (Qeq_eqR _ _ Hl), (Qeq_eqR _ _ Hu), !machin_sum_R.
  exact (PI_2_3_7_ineq 9).
Qed.

(** [pi] to 17 decimal places. *)
Lemma PI_digits : Q2R Enclosure.pi_lower < PI < Q2R Enclosure.pi_upper.
Proof.
  destruct quarter_pi_bounds as [Hl Hu].
  assert (Ql : (Enclosure.pi_lower < (4 # 1) * Enclosure.quarter_pi_lower)%Q) by reflexivity.
  assert (Qu : ((4 # 1) * Enclosure.quarter_pi_upper < Enclosure.pi_upper)%Q) by reflexivity.
  apply Qlt_Rlt in Ql, Qu. rewrite Q2R_mult in Ql, Qu.
  replace (Q2R (4 # 1)) with 4 in Ql, Qu by (unfold Q2R; simpl; lra).
  split; lra.
Qed.

Lemma recorded_energy_one_enclosure : Q2R Recorded.cell6_e < 4 / PI < Q2R Recorded.cell6_e + / 2 ^ 52.
Proof.
  destruct PI_digits as [Hl Hu].
  assert (Hpos : 0 < PI) by apply PI_RGT_0.
  assert (Q1 : (Recorded.cell6_e * Enclosure.pi_upper < 4 # 1)%Q) by reflexivity.
  assert (Q2 : ((4 # 1) < (Recorded.cell6_e + Enclosure.ulp) * Enclosure.pi_lower)%Q) by reflexivity.
  apply Qlt_Rlt in Q1, Q2. rewrite Q2R_mult in Q1, Q2. rewrite Q2R_plus in Q2.
  replace (Q2R (4 # 1)) with 4 in Q1, Q2 by (unfold Q2R; simpl; lra).
  assert (Hulp : Q2R Enclosure.ulp = / 2 ^ 52).
  { unfold Enclosure.ulp, Q2R. simpl Qnum. simpl Qden. rewrite Rmult_1_l, pow_IZR.
    do 2 f_equal. }
  rewrite Hulp in Q2.
  assert (Href : 0 < Q2R Recorded.cell6_e).
  { replace 0 with (Q2R 0) by (unfold Q2R; simpl; lra).
    apply Qlt_Rlt. reflexivity. }
  assert (Hu52 : 0 < / 2 ^ 52).
  { apply Rinv_0_lt_compat, pow_lt. lra. }
  split.
  - apply (Rmult_lt_reg_r PI); [exact Hpos |].
    unfold Rdiv. rewrite Rmult_assoc, Rinv_l, Rmult_1_r by lra.
    apply Rle_lt_trans with (Q2R Recorded.cell6_e * Q2R Enclosure.pi_upper); [| exact Q1].
    apply Rmult_le_compat_l; lra.
  - apply (Rmult_lt_reg_r PI); [exact Hpos |].
    unfold Rdiv. rewrite Rmult_assoc, Rinv_l, Rmult_1_r by lra.
    apply Rlt_le_trans with ((Q2R Recorded.cell6_e + / 2 ^ 52) * Q2R Enclosure.pi_lower); [exact Q2 |].
    apply Rmult_le_compat_l; lra.
Qed.

(** ** The point [g = 1] *)

Lemma radicand_one (x : R) : radicand 1 x = (2 * sin (x / 2)) ^ 2.
Proof.
  rewrite radicand_simplified. unfold Recorded.simplified_radicand.
  replace (cos x) with (cos (2 * (x / 2))) by (f_equal; field).
  rewrite cos_2a_sin. ring.
Qed.

Lemma integrand_one (x : R) : 0 <= x <= PI -> integrand 1 x = 2 * sin (x / 2).
Proof.
  intros [H0 H1]. unfold integrand. rewrite radicand_one.
  replace ((2 * sin (x / 2)) ^ 2) with (Rsqr (2 * sin (x / 2))) by (unfold Rsqr; ring).
  apply sqrt_Rsqr.
  apply Rmult_le_pos; [lra |].
  apply sin_ge_0; lra.
Qed.

Lemma primitive_one_derivative (x : R) :
  derivable_pt_lim primitive_one x (2 * sin (x / 2)).
Proof.
  unfold primitive_one.
  replace (2 * sin (x / 2)) with (- 4 * (- sin (x / 2) * (1 * / 2))) by field.
  apply (derivable_pt_lim_scal (fun t => cos (t / 2)) (- 4) x).
  apply (derivable_pt_lim_comp (fun t => t / 2) cos).
  - unfold Rdiv.
    replace (1 * / 2) with (1 * / 2 + id x * 0) by (unfold id; ring).
    apply (derivable_pt_lim_mult id (fun _ => / 2)).
    + apply derivable_pt_lim_id.
    + apply derivable_pt_lim_const.
  - apply derivable_pt_lim_cos.
Qed.

Lemma primitive_one_antiderivative :
  antiderivative (integrand 1) primitive_one 0 PI.
Proof.
  split.
  - intros x Hx.
    exists (exist _ (2 * sin (x / 2)) (primitive_one_derivative x)).
    simpl. apply integrand_one, Hx.
  - left. apply PI_RGT_0.
Qed.

Lemma primitive_one_increment : primitive_one PI - primitive_one 0 = 4.
Proof.
  unfold primitive_one.
  replace (0 / 2) with 0 by field.
  rewrite cos_PI2, cos_0. ring.
Qed.

Lemma antiderivative_ext (h h' F : R -> R) (a b : R) :
  (forall x, a <= x <= b -> h x = h' x) ->
  antiderivative h' F a b -> antiderivative h F a b.
Proof.
  intros Hh [HF Hab]. split; [| exact Hab].
  intros x Hx. destruct (HF x Hx) as [pr Hpr].
  exists pr. rewrite (Hh x Hx). exact Hpr.
Qed.

Lemma antiderivative_increment (h F G : R -> R) (a b : R) :
  antiderivative h F a b -> antiderivative h G a b -> F b - F a = G b - G a.
Proof.
  intros HF HG.
  destruct (antiderivative_Ucte h F G a b HF HG) as [c Hc].
  destruct HF as [_ Hab].
  rewrite (Hc a), (Hc b) by lra. ring.
Qed.

Lemma newton_exact (h : R -> R) (f : R -> option R) (a b : R) :
  defined_on f h a b -> exact_at Doubles.newton h f a b.
Proof.
  intros Hf F HF. exists 0, []. unfold Doubles.newton. do 2 f_equal.
  set (P := fun v : R => forall h' F', defined_on f h' a b ->
                                       antiderivative h' F' a b -> v = F' b - F' a).
  assert (Hex : exists v, P v).
  { exists (F b - F a). intros h' F' Hf' HF'.
    apply (antiderivative_increment h); [exact HF |].
    apply (antiderivative_ext h h'); [| exact HF'].
    intros x Hx. pose proof (Hf x Hx) as E. rewrite (Hf' x Hx) in E.
    injection E as E. symmetry. exact E. }
  exact (epsilon_spec (inhabits 0) P Hex h F Hf HF).
Qed.



Lemma newton_accurate (h : R -> R) (f : R -> option R) (a b : R) :
  defined_on f h a b -> accurate_at Doubles.newton h f a b.
Proof.
  intros Hf F HF.
  destruct (newton_exact h f a b Hf F HF) as (err & ws & H).
  unfold Doubles.newton in H. injection H as Hest Herr Hws.
  exists (F b - F a), 0, []. split.
  - unfold Doubles.newton. rewrite Hest. reflexivity.
  - rewrite Rminus_diag, Rabs_R0. apply Rle_refl.
Qed.

Lemma newton_within (delta : R) (h : R -> R) (f : R -> option R) (a b : R) :
  0 <= delta -> defined_on f h a b -> within delta Doubles.newton h f a b.
Proof.
  intros Hd Hf F HF.
  destruct (newton_accurate h f a b Hf F HF) as (est & err & ws & H & Hacc).
  unfold Doubles.newton in H. injection H as Hest Herr Hws.
  exists est, err, ws. split.
  - unfold Doubles.newton. rewrite Hest, Herr, Hws. reflexivity.
  - rewrite <- Herr in Hacc. lra.
Qed.

Lemma newton_tolerant : tolerant 1e-6 Doubles.newton.
Proof.
  intros i _. apply newton_within; [lra | apply y_defined_on].
Qed.

Lemma Rabs_within (x b : R) : Rabs x <= b -> - b <= x <= b.
Proof.
  unfold Rabs. destruct (Rcase_abs x); lra.
Qed.

Lemma within_energy (quad : Engine) (delta g e : R) (F : R -> R) :
  within delta quad (integrand g) (y g) 0 PI ->
  antiderivative (integrand g) F 0 PI ->
  energy quad g = Some e ->
  Rabs (e - (F PI - F 0) / PI) <= delta / PI.
Proof.
  intros Hq HF He.
  destruct (Hq F HF) as (est & err & ws & Hret & Hacc).
  rewrite (energy_returned quad g _ _ Hret) in He. injection He as <-. simpl.
  replace (1 / PI * est - (F PI - F 0) / PI) with ((est - (F PI - F 0)) * / PI)
    by (field; apply PI_neq0).
  rewrite Rabs_mult, (Rabs_pos_eq (/ PI)).
  - apply Rmult_le_compat_r; [| exact Hacc].
    left. apply Rinv_0_lt_compat, PI_RGT_0.
  - left. apply Rinv_0_lt_compat, PI_RGT_0.
Qed.





(** ** Complex pairs and polynomials *)

Import Poly Trig Certificate.

Ltac csolve :=
  unfold cadd, cmul, cnorm2; simpl; try (f_equal; ring); try ring.

Lemma cadd_comm (u v : R * R) : cadd u v = cadd v u.
Proof. csolve. Qed.

Lemma cadd_assoc (u v w : R * R) : cadd u (cadd v w) = cadd (cadd u v) w.
Proof. csolve. Qed.

Lemma cadd_0_r (u : R * R) : cadd u (0, 0) = u.
Proof. destruct u. csolve. Qed.

Lemma cmul_0_r (u : R * R) : cmul u (0, 0) = (0, 0).
Proof. csolve. Qed.

Lemma cmul_comm (u v : R * R) : cmul u v = cmul v u.
Proof. csolve. Qed.

Lemma cmul_assoc (u v w : R * R) : cmul u (cmul v w) = cmul (cmul u v) w.
Proof. csolve. Qed.

Lemma cmul_cadd_distr_l (u v w : R * R) :
  cmul u (cadd v w) = cadd (cmul u v) (cmul u w).
Proof. csolve. Qed.

Lemma cmul_cadd_distr_r (u v w : R * R) :
  cmul (cadd u v) w = cadd (cmul u w) (cmul v w).
Proof. csolve. Qed.

Lemma cnorm2_nonneg (u : R * R) : 0 <= cnorm2 u.
Proof. unfold cnorm2. nra. Qed.

Lemma cnorm_nonneg (u : R * R) : 0 <= cnorm u.
Proof. apply sqrt_pos. Qed.

Lemma cnorm2_cmul (u v : R * R) : cnorm2 (cmul u v) = cnorm2 u * cnorm2 v.
Proof. csolve. Qed.

Lemma cnorm_cmul (u v : R * R) : cnorm (cmul u v) = cnorm u * cnorm v.
Proof.
  unfold cnorm. rewrite cnorm2_cmul.
  apply sqrt_mult; apply cnorm2_nonneg.
Qed.

Lemma cnorm_square (u : R * R) : cnorm (cmul u u) = cnorm2 u.
Proof.
  rewrite cnorm_cmul. unfold cnorm. apply sqrt_def, cnorm2_nonneg.
Qed.

Lemma cnorm_real (a : R) : cnorm (a, 0) = Rabs a.
Proof.
  unfold cnorm, cnorm2. simpl.
  replace (a * a + 0 * 0) with (Rsqr a) by (unfold Rsqr; ring).
  apply sqrt_Rsqr_abs.
Qed.

Lemma cnorm2_cis (t : R) : cnorm2 (cis t) = 1.
Proof.
  unfold cnorm2, cis. simpl.
  pose proof (sin2_cos2 t) as H. unfold Rsqr in H. lra.
Qed.

Lemma cnorm_cis (t : R) : cnorm (cis t) = 1.
Proof. unfold cnorm. rewrite cnorm2_cis. apply sqrt_1. Qed.

Lemma cnorm_triangle (u v : R * R) : cnorm (cadd u v) <= cnorm u + cnorm v.
Proof.
  pose proof (triangle (fst u + fst v) (snd u + snd v) 0 0 (fst v) (snd v)) as H.
  unfold dist_euc, Rsqr in H. unfold cnorm, cnorm2, cadd. simpl.
  replace ((fst u + fst v - 0) * (fst u + fst v - 0) +
           (snd u + snd v - 0) * (snd u + snd v - 0))
    with ((fst u + fst v) * (fst u + fst v) + (snd u + snd v) * (snd u + snd v)) in H by ring.
  replace ((fst u + fst v - fst v) * (fst u + fst v - fst v) +
           (snd u + snd v - snd v) * (snd u + snd v - snd v))
    with (fst u * fst u + snd u * snd u) in H by ring.
  replace ((fst v - 0) * (fst v - 0) + (snd v - 0) * (snd v - 0))
    with (fst v * fst v + snd v * snd v) in H by ring.
  exact H.
Qed.

Lemma cnorm_opp (u : R * R) : cnorm (cmul (-1, 0) u) = cnorm u.
Proof.
  rewrite cnorm_cmul, cnorm_real.
  replace (Rabs (-1)) with 1 by (unfold Rabs; destruct (Rcase_abs (-1)); lra).
  ring.
Qed.

(** Reverse triangle inequality. *)
Lemma cnorm_perturb (u v : R * R) : Rabs (cnorm (cadd u v) - cnorm u) <= cnorm v.
Proof.
  pose proof (cnorm_triangle u v) as H1.
  pose proof (cnorm_triangle (cadd u v) (cmul (-1, 0) v)) as H2.
  rewrite cnorm_opp in H2.
  replace (cadd (cadd u v) (cmul (-1, 0) v)) with u in H2
    by (destruct u, v; csolve).
  apply Rabs_le. lra.
Qed.

Lemma peval_padd (p : list R) :
  forall q z, peval (padd p q) z = cadd (peval p z) (peval q z).
Proof.
  induction p as [| a p IH]; intros q z.
  - simpl. destruct (peval q z). csolve.
  - destruct q as [| b q].
    + simpl. rewrite cadd_0_r. reflexivity.
    + simpl. rewrite IH. destruct (peval p z), (peval q z), z. csolve.
Qed.

Lemma peval_pscale (a : R) (p : list R) (z : R * R) :
  peval (pscale a p) z = cmul (a, 0) (peval p z).
Proof.
  induction p as [| b p IH].
  - simpl. csolve.
  - simpl. fold (pscale a p). rewrite IH.
    destruct (peval p z), z. csolve.
Qed.

Lemma peval_pmul (p : list R) :
  forall q z, peval (pmul p q) z = cmul (peval p z) (peval q z).
Proof.
  induction p as [| a p IH]; intros q z.
  - simpl. csolve.
  - simpl. rewrite peval_padd, peval_pscale. simpl. rewrite IH.
    destruct (peval p z), (peval q z), z. csolve.
Qed.

Lemma peval_psub (p q : list R) (z : R * R) :
  peval p z = cadd (peval q z) (peval (psub p q) z).
Proof.
  unfold psub. rewrite peval_padd, peval_pscale.
  destruct (peval p z), (peval q z). csolve.
Qed.

Lemma l1_nonneg (p : list R) : 0 <= l1 p.
Proof.
  induction p as [| a p IH]; simpl; [lra |].
  pose proof (Rabs_pos a). lra.
Qed.

Lemma cnorm_peval (p : list R) (z : R * R) :
  cnorm z = 1 -> cnorm (peval p z) <= l1 p.
Proof.
  intros Hz. induction p as [| a p IH].
  - simpl. unfold cnorm, cnorm2. simpl.
    replace (0 * 0 + 0 * 0) with 0 by ring. rewrite sqrt_0. lra.
  - simpl. eapply Rle_trans; [apply cnorm_triangle |].
    rewrite cnorm_real, cnorm_cmul, Hz. lra.
Qed.

(** A polynomial whose square is close to [t] has squared modulus close
    to the modulus of [t] on the unit circle. *)
Lemma square_root_certificate (p t : list R) (z : R * R) :
  cnorm z = 1 ->
  Rabs (cnorm2 (peval p z) - cnorm (peval t z)) <= l1 (psub (pmul p p) t).
Proof.
  intros Hz.
  rewrite <- cnorm_square, <- peval_pmul.
  rewrite (peval_psub (pmul p p) t z).
  eapply Rle_trans; [apply cnorm_perturb |].
  apply cnorm_peval, Hz.
Qed.

(** ** Trigonometric sums *)

Lemma cis_plus (s t : R) : cis (s + t) = cmul (cis s) (cis t).
Proof.
  unfold cis, cmul. simpl. rewrite cos_plus, sin_plus. f_equal. ring.
Qed.

Lemma cis_shift (p : list R) (x : R) :
  forall k, cmul (cis (INR k * x)) (peval p (cis x)) = (csum p k x, ssum p k x).
Proof.
  induction p as [| a p IH]; intros k.
  - simpl. apply cmul_0_r.
  - simpl peval. rewrite cmul_cadd_distr_l, cmul_assoc, <- cis_plus.
    replace (INR k * x + x) with (INR (S k) * x) by (rewrite S_INR; ring).
    rewrite IH. unfold cmul, cadd, cis. simpl. f_equal; ring.
Qed.

Lemma cnorm2_peval_cons (a : R) (p : list R) (x : R) :
  cnorm2 (peval (a :: p) (cis x)) =
  a * a + 2 * a * csum p 1 x + cnorm2 (peval p (cis x)).
Proof.
  simpl peval.
  pose proof (cis_shift p x 1) as H. simpl INR in H. rewrite Rmult_1_l in H.
  pose proof (cnorm2_cmul (cis x) (peval p (cis x))) as Hn.
  rewrite cnorm2_cis, Rmult_1_l in Hn.
  rewrite <- Hn, H. unfold cnorm2, cadd. simpl. ring.
Qed.

Lemma sint_derivative (p : list R) (x : R) :
  forall k, (0 < k)%nat -> derivable_pt_lim (sint p k) x (csum p k x).
Proof.
  induction p as [| a p IH]; intros k Hk.
  - simpl. apply derivable_pt_lim_const.
  - change (sint (a :: p) k)
      with (plus_fct (fun t => a * (sin (INR k * t) / INR k)) (sint p (S k))).
    simpl csum. apply derivable_pt_lim_plus; [| apply IH; lia].
    assert (Hk0 : INR k <> 0) by (apply not_0_INR; lia).
    replace (a * cos (INR k * x))
      with (a * ((cos (INR k * x) * (INR k * 1 + 0 * x)) * / INR k + sin (INR k * x) * 0))
      by (field; exact Hk0).
    apply (derivable_pt_lim_scal (fun t => sin (INR k * t) / INR k) a x).
    unfold Rdiv.
    apply (derivable_pt_lim_mult (fun t => sin (INR k * t)) (fun _ => / INR k)).
    + apply (derivable_pt_lim_comp (fun t => INR k * t) sin).
      * replace (INR k * 1 + 0 * x) with (0 * x + INR k * 1) by ring.
        apply (derivable_pt_lim_mult (fun _ => INR k) (fun t => t)).
        -- apply derivable_pt_lim_const.
        -- apply derivable_pt_lim_id.
      * apply derivable_pt_lim_sin.
    + apply derivable_pt_lim_const.
Qed.

Lemma energy_primitive_derivative (p : list R) (x : R) :
  derivable_pt_lim (energy_primitive p) x (cnorm2 (peval p (cis x))).
Proof.
  induction p as [| a p IH].
  - simpl. unfold cnorm2. simpl. replace (0 * 0 + 0 * 0) with 0 by ring.
    apply derivable_pt_lim_const.
  - rewrite cnorm2_peval_cons.
    change (energy_primitive (a :: p))
      with (plus_fct (plus_fct (fun t => a * a * t) (fun t => 2 * a * sint p 1 t))
                     (energy_primitive p)).
    apply derivable_pt_lim_plus; [apply derivable_pt_lim_plus |].
    + replace (a * a) with (a * a * 1) at 1 by ring.
      apply (derivable_pt_lim_scal (fun t => t) (a * a) x).
      apply derivable_pt_lim_id.
    + apply (derivable_pt_lim_scal (sint p 1) (2 * a) x).
      apply sint_derivative. lia.
    + exact IH.
Qed.

Lemma sin_INR_PI (k : nat) : sin (INR k * PI) = 0.
Proof.
  apply sin_eq_0_1. exists (Z.of_nat k). rewrite INR_IZR_INZ. reflexivity.
Qed.

Lemma sint_0 (p : list R) : forall k, sint p k 0 = 0.
Proof.
  induction p as [| a p IH]; intros k; simpl; [reflexivity |].
  rewrite IH, Rmult_0_r, sin_0. unfold Rdiv. ring.
Qed.

Lemma sint_PI (p : list R) : forall k, sint p k PI = 0.
Proof.
  induction p as [| a p IH]; intros k; simpl; [reflexivity |].
  rewrite IH, sin_INR_PI. unfold Rdiv. ring.
Qed.

Lemma energy_primitive_0 (p : list R) : energy_primitive p 0 = 0.
Proof.
  induction p as [| a p IH]; simpl; [reflexivity |].
  rewrite IH, sint_0. ring.
Qed.

Lemma energy_primitive_PI (p : list R) : energy_primitive p PI = sumsq p * PI.
Proof.
  induction p as [| a p IH]; simpl; [ring |].
  rewrite IH, sint_PI. ring.
Qed.

(** ** From a near square root to the integral *)

Lemma target_modulus (a mb s g x : R) :
  0 <= s ->
  a * mb = - (s * s * g) ->
  a * a + mb * mb = s * s * (1 + g * g) ->
  cnorm (peval [a; mb] (cis x)) = s * integrand g x.
Proof.
  intros Hs H1 H2. unfold cnorm, integrand.
  assert (E : cnorm2 (peval [a; mb] (cis x)) = (s * s) * radicand g x).
  { rewrite radicand_simplified. unfold Recorded.simplified_radicand.
    unfold cnorm2, peval, cadd, cmul, cis. simpl.
    pose proof (sin2_cos2 x) as Hx. unfold Rsqr in Hx.
    replace ((a + (cos x * (mb + (cos x * 0 - sin x * 0)) - sin x * (0 + (cos x * 0 + sin x * 0)))) *
             (a + (cos x * (mb + (cos x * 0 - sin x * 0)) - sin x * (0 + (cos x * 0 + sin x * 0)))) +
             (0 + (cos x * (0 + (cos x * 0 + sin x * 0)) + sin x * (mb + (cos x * 0 - sin x * 0)))) *
             (0 + (cos x * (0 + (cos x * 0 + sin x * 0)) + sin x * (mb + (cos x * 0 - sin x * 0)))))
      with (a * a + 2 * (a * mb) * cos x + mb * mb * (sin x * sin x + cos x * cos x)) by ring.
    rewrite Hx, H1.
    replace (a * a + 2 * - (s * s * g) * cos x + mb * mb * 1)
      with ((a * a + mb * mb) - 2 * (s * s * g) * cos x) by ring.
    rewrite H2. ring. }
  rewrite E, sqrt_mult; [| nra | apply radicand_nonneg].
  rewrite sqrt_square by exact Hs. reflexivity.
Qed.

Lemma antiderivative_limit (h H : R -> R) (a b x : R) :
  antiderivative h H a b -> a <= x <= b -> derivable_pt_lim H x (h x).
Proof.
  intros [HH _] Hx. destruct (HH x Hx) as [[l Hl] E].
  simpl in E. rewrite E. exact Hl.
Qed.

Lemma antiderivative_close (h1 h2 H1 H2 : R -> R) (a b tau : R) :
  antiderivative h1 H1 a b -> antiderivative h2 H2 a b ->
  (forall x, a <= x <= b -> Rabs (h1 x - h2 x) <= tau) ->
  Rabs ((H1 b - H1 a) - (H2 b - H2 a)) <= tau * (b - a).
Proof.
  intros A1 A2 Hh.
  destruct (proj2 A1) as [Hab | Hab].
  - destruct (MVT_cor2 (minus_fct H1 H2) (fun x => h1 x - h2 x) a b Hab) as (c & Hc & Hin).
    + intros x Hx. apply derivable_pt_lim_minus.
      * apply (antiderivative_limit h1 H1 a b x A1 Hx).
      * apply (antiderivative_limit h2 H2 a b x A2 Hx).
    + unfold minus_fct in Hc.
      replace (H1 b - H1 a - (H2 b - H2 a)) with (H1 b - H2 b - (H1 a - H2 a)) by ring.
      rewrite Hc, Rabs_mult, (Rabs_pos_eq (b - a)) by lra.
      apply Rmult_le_compat_r; [lra |]. apply Hh. lra.
  - subst b. replace (H1 a - H1 a - (H2 a - H2 a)) with 0 by ring.
    rewrite Rabs_R0. lra.
Qed.

Lemma energy_primitive_antiderivative (p : list R) :
  antiderivative (fun x => cnorm2 (peval p (cis x))) (energy_primitive p) 0 PI.
Proof.
  split.
  - intros x _.
    exists (exist _ _ (energy_primitive_derivative p x)). reflexivity.
  - left. apply PI_RGT_0.
Qed.

Lemma scaled_antiderivative (h H : R -> R) (s a b : R) :
  antiderivative h H a b ->
  antiderivative (fun x => s * h x) (fun x => s * H x) a b.
Proof.
  intros A. split; [| exact (proj2 A)].
  intros x Hx.
  assert (D : derivable_pt_lim (fun t => s * H t) x (s * h x)).
  { apply (derivable_pt_lim_scal H s x), (antiderivative_limit h H a b x A Hx). }
  exists (exist _ _ D). reflexivity.
Qed.

(** If [p * p] is within [tau] (in the sum of absolute coefficients) of the
    polynomial [a + mb z], whose modulus on the unit circle is [s] times
    the integrand, then [s] times the integral of the integrand over
    [[0, pi]] is within [tau * pi] of [pi] times the sum of the squares of
    the coefficients of [p]. *)
Theorem certificate_bound (p : list R) (a mb s g : R) (F : R -> R) :
  0 <= s ->
  a * mb = - (s * s * g) ->
  a * a + mb * mb = s * s * (1 + g * g) ->
  antiderivative (integrand g) F 0 PI ->
  Rabs (sumsq p * PI - s * (F PI - F 0)) <= l1 (psub (pmul p p) [a; mb]) * PI.
Proof.
  intros Hs H1 H2 HF.
  pose proof (antiderivative_close
                (fun x => cnorm2 (peval p (cis x))) (fun x => s * integrand g x)
                (energy_primitive p) (fun x => s * F x) 0 PI
                (l1 (psub (pmul p p) [a; mb]))
                (energy_primitive_antiderivative p)
                (scaled_antiderivative (integrand g) F s 0 PI HF)) as H.
  rewrite energy_primitive_PI, energy_primitive_0 in H.
  replace (sumsq p * PI - 0 - (s * F PI - s * F 0))
    with (sumsq p * PI - s * (F PI - F 0)) in H by ring.
  replace (l1 (psub (pmul p p) [a; mb]) * (PI - 0))
    with (l1 (psub (pmul p p) [a; mb]) * PI) in H by ring.
  apply H. intros x _.
  rewrite <- (target_modulus a mb s g x Hs H1 H2).
  apply square_root_certificate, cnorm_cis.
Qed.

Lemma integrand_continuous (g x : R) : continuity_pt (integrand g) x.
Proof.
  unfold integrand.
  apply (continuity_pt_comp (radicand g) sqrt).
  - apply derivable_continuous_pt. unfold radicand. reg.
  - apply continuity_pt_sqrt, radicand_nonneg.
Qed.

Lemma integrand_antiderivative_exists (g : R) :
  exists F, antiderivative (integrand g) F 0 PI.
Proof.
  assert (h : 0 <= PI) by (left; apply PI_RGT_0).
  assert (C0 : forall x, 0 <= x <= PI -> continuity_pt (integrand g) x).
  { intros x _. apply integrand_continuous. }
  exists (primitive h (FTC_P1 h C0)). apply RiemannInt_P29.
Qed.

(** ** Integer certificates *)

Lemma map_IZR_paddZ (p : list Z) :
  forall q, map IZR (paddZ p q) = padd (map IZR p) (map IZR q).
Proof.
  induction p as [| a p IH]; intros [| b q]; simpl; try reflexivity.
  rewrite plus_IZR, IH. reflexivity.
Qed.

Lemma map_IZR_pscaleZ (a : Z) (p : list Z) :
  map IZR (pscaleZ a p) = pscale (IZR a) (map IZR p).
Proof.
  unfold pscaleZ, pscale. rewrite !map_map.
  apply map_ext. intros b. apply mult_IZR.
Qed.

Lemma map_IZR_pmulZ (p : list Z) :
  forall q, map IZR (pmulZ p q) = pmul (map IZR p) (map IZR q).
Proof.
  induction p as [| a p IH]; intros q; simpl; [reflexivity |].
  rewrite map_IZR_paddZ, map_IZR_pscaleZ. simpl. rewrite IH. reflexivity.
Qed.

Lemma map_IZR_psubZ (p q : list Z) :
  map IZR (psubZ p q) = psub (map IZR p) (map IZR q).
Proof.
  unfold psubZ, psub. rewrite map_IZR_paddZ, map_IZR_pscaleZ. reflexivity.
Qed.

Lemma IZR_l1Z (p : list Z) : IZR (l1Z p) = l1 (map IZR p).
Proof.
  induction p as [| a p IH]; simpl; [reflexivity |].
  rewrite plus_IZR, abs_IZR, IH. reflexivity.
Qed.

Lemma IZR_sumsqZ (p : list Z) : IZR (sumsqZ p) = sumsq (map IZR p).
Proof.
  induction p as [| a p IH]; simpl; [reflexivity |].
  rewrite plus_IZR, mult_IZR, IH. reflexivity.
Qed.

Lemma scale_pos : (0 < scale)%Z.
Proof. reflexivity. Qed.

Lemma target_of_product (u i : Z) :
  (fst (target_of u i) * snd (target_of u i) * 10 = (10 * u) * (10 * u) * i)%Z.
Proof.
  unfold target_of. destruct (i <=? 10)%Z; cbn [fst snd]; ring.
Qed.

Lemma target_of_squares (u i : Z) :
  ((fst (target_of u i) * fst (target_of u i)
    + snd (target_of u i) * snd (target_of u i)) * 100
   = (10 * u) * (10 * u) * (100 + i * i))%Z.
Proof.
  unfold target_of. destruct (i <=? 10)%Z; cbn [fst snd]; ring.
Qed.

(** The certificate encloses the exact energy. *)
Lemma centre_radius_sound (i : Z) (F : R -> R) :
  antiderivative (integrand (g_of i)) F 0 PI ->
  Rabs ((F PI - F 0) / PI - IZR (fst (centre_radius i)) / IZR scale)
  <= IZR (snd (centre_radius i)) / IZR scale.
Proof.
  intros HF. unfold centre_radius.
  pose proof (target_of_product quantum i) as Hp.
  pose proof (target_of_squares quantum i) as Hs.
  fold scale in Hp, Hs. fold (target i) in Hp, Hs.
  destruct (target i) as [ta tb]. cbn [fst snd] in *.
  set (p := root ta tb (terms i)).
  assert (Hscale : 0 < IZR scale) by (apply IZR_lt, scale_pos).
  pose proof (certificate_bound (map IZR p) (IZR ta) (IZR (- tb)) (IZR scale) (g_of i) F) as H.
  rewrite <- map_IZR_pmulZ in H.
  change [IZR ta; IZR (- tb)] with (map IZR [ta; (- tb)%Z]) in H.
  rewrite <- map_IZR_psubZ, <- IZR_l1Z, <- IZR_sumsqZ in H.
  apply (f_equal IZR) in Hp, Hs.
  rewrite !mult_IZR in Hp. rewrite !mult_IZR, !plus_IZR, !mult_IZR in Hs.
  assert (H' := fun A B => H (Rlt_le _ _ Hscale) A B HF). clear H.
  assert (Hb : Rabs (IZR (sumsqZ p) * PI - IZR scale * (F PI - F 0))
               <= IZR (l1Z (psubZ (pmulZ p p) [ta; (- tb)%Z])) * PI).
  { apply H'.
    - rewrite opp_IZR. unfold g_of. lra.
    - rewrite opp_IZR. unfold g_of. lra. }
  clear H'.
  set (c := IZR (sumsqZ p)) in *. set (t := IZR (l1Z (psubZ (pmulZ p p) [ta; (- tb)%Z]))) in *.
  assert (Hpi : 0 < PI) by apply PI_RGT_0.
  replace ((F PI - F 0) / PI - c / IZR scale)
    with (- (c * PI - IZR scale * (F PI - F 0)) * / (IZR scale * PI))
    by (field; lra).
  rewrite Rabs_mult, Rabs_Ropp, (Rabs_pos_eq (/ (IZR scale * PI))).
  - replace (t / IZR scale) with (t * PI * / (IZR scale * PI)) by (field; lra).
    apply Rmult_le_compat_r; [| exact Hb].
    left. apply Rinv_0_lt_compat. apply Rmult_lt_0_compat; assumption.
  - left. apply Rinv_0_lt_compat. apply Rmult_lt_0_compat; assumption.
Qed.

Lemma Q2R_over_scale (c : Z) : Q2R (c # Z.to_pos scale) = IZR c / IZR scale.
Proof.
  unfold Q2R. cbn [Qnum Qden]. rewrite Z2Pos.id by exact scale_pos. reflexivity.
Qed.

Lemma Q2R_ulp : Q2R Enclosure.ulp = / 2 ^ 52.
Proof.
  unfold Enclosure.ulp, Q2R. cbn [Qnum Qden]. rewrite Rmult_1_l, pow_IZR.
  do 2 f_equal.
Qed.

Lemma enclosure_sound (i : Z) (F : R -> R) :
  antiderivative (integrand (g_of i)) F 0 PI ->
  Rabs ((F PI - F 0) / PI - Q2R (fst (enclosure i))) <= Q2R (snd (enclosure i)).
Proof.
  intros HF. unfold enclosure. destruct (Z.eqb_spec i 10) as [-> | Hi].
  - cbn [fst snd].
    assert (Hg : g_of 10 = 1) by (unfold g_of; lra).
    rewrite Hg in HF.
    rewrite (antiderivative_increment (integrand 1) F primitive_one 0 PI
               HF primitive_one_antiderivative), primitive_one_increment.
    destruct recorded_energy_one_enclosure as [Hl Hu].
    rewrite Q2R_ulp. apply Rabs_le. lra.
  - pose proof (centre_radius_sound i F HF) as H.
    destruct (centre_radius i) as [c t]. cbn [fst snd] in *.
    rewrite !Q2R_over_scale. exact H.
Qed.

Lemma PI_gt_3 : 3 < PI.
Proof. pose proof PI2_3_2. lra. Qed.

Lemma Q2R_tolerance : Q2R tolerance = 1e-6.
Proof. unfold tolerance, Q2R. cbn [Qnum Qden]. lra. Qed.

Lemma Q2R_rel6 : Q2R rel6 = 5e-6.
Proof. unfold rel6, Q2R. cbn [Qnum Qden]. lra. Qed.

(** One sample: an engine within the tolerance of the integral gives an
    energy within [5e-6], relatively, of the reference value. *)
Lemma sample_sound (quad : Engine) (i : Z) (r : Q) (e : R) :
  sample_ok i r = true ->
  within 1e-6 quad (integrand (g_of i)) (y (g_of i)) 0 PI ->
  energy quad (g_of i) = Some e ->
  Rabs (e - Q2R r) <= 5e-6 * Q2R r.
Proof.
  intros Hok Hq He.
  destruct (integrand_antiderivative_exists (g_of i)) as [F HF].
  destruct (Hq F HF) as (est & err & ws & Hret & Hest).
  rewrite (energy_returned _ _ _ _ Hret) in He. injection He as <-. simpl fst.
  pose proof (enclosure_sound i F HF) as Henc.
  unfold sample_ok, sample_ok_at in Hok.
  destruct (enclosure i) as [c t]. cbn [fst snd] in Henc.
  apply andb_prop in Hok. destruct Hok as [Hlo Hhi].
  apply Qle_bool_iff, Qle_Rle in Hlo. apply Qle_bool_iff, Qle_Rle in Hhi.
  assert (H3 : ~ ((3 # 1) == 0)%Q) by discriminate.
  rewrite !Q2R_minus, Q2R_mult, Q2R_div in Hlo by exact H3.
  rewrite !Q2R_plus, Q2R_mult, Q2R_div in Hhi by exact H3.
  rewrite Q2R_tolerance, Q2R_rel6 in Hlo, Hhi.
  replace (Q2R (3 # 1)) with 3 in Hlo, Hhi by (unfold Q2R; cbn [Qnum Qden]; lra).
  pose proof PI_gt_3 as Hpi.
  assert (Hd : Rabs (1 / PI * est - (F PI - F 0) / PI) <= 1e-6 / 3).
  { replace (1 / PI * est - (F PI - F 0) / PI) with ((est - (F PI - F 0)) * / PI)
      by (field; lra).
    rewrite Rabs_mult, (Rabs_pos_eq (/ PI))
      by (left; apply Rinv_0_lt_compat; lra).
    apply Rle_trans with (1e-6 * / PI).
    - apply Rmult_le_compat_r; [left; apply Rinv_0_lt_compat; lra | exact Hest].
    - unfold Rdiv. apply Rmult_le_compat_l; [lra |].
      apply Rinv_le_contravar; lra. }
  apply Rabs_within in Hd. apply Rabs_within in Henc. apply Rabs_le. lra.
Qed.

Lemma samples_sound (quad : Engine) (idx : list Z) :
  forall refs l,
    all2 sample_ok idx refs = true ->
    (forall i, In i idx -> within 1e-6 quad (integrand (g_of i)) (y (g_of i)) 0 PI) ->
    sweep quad (map g_of idx) = Some l ->
    Forall2 (fun ge r => Rabs (snd ge - Q2R r) <= 5e-6 * Q2R r) l refs.
Proof.
  induction idx as [| i idx IH]; intros [| r refs] l Hok Hq Hl;
    simpl in Hok; try discriminate.
  - simpl in Hl. injection Hl as <-. constructor.
  - apply andb_prop in Hok. destruct Hok as [Hi Hrest].
    simpl map in Hl. apply sweep_cons in Hl.
    destruct Hl as (e & l' & He & Hl' & ->).
    constructor.
    + simpl snd. apply (sample_sound quad i r e Hi); [| exact He].
      apply Hq. left. reflexivity.
    + apply IH; [exact Hrest | | exact Hl'].
      intros j Hj. apply Hq. right. exact Hj.
Qed.

Lemma within_returns (quad : Engine) (delta g : R) :
  within delta quad (integrand g) (y g) 0 PI ->
  exists p ws, quad (y g) 0 PI = Return p ws.
Proof.
  intros Hq. destruct (integrand_antiderivative_exists g) as [F HF].
  destruct (Hq F HF) as (est & err & ws & Hret & _).
  exists (est, err), ws. exact Hret.
Qed.

Lemma all2_map {A B C : Type} (f : B -> C -> bool) (g : A -> B) (l1 : list A) :
  forall l2 : list C,
    all2 (fun a => f (g a)) l1 l2 = all2 f (map g l1) l2.
Proof.
  induction l1 as [| a t IH]; intros [| c t2]; simpl; try reflexivity.
  rewrite IH. reflexivity.
Qed.

Lemma enclosures_computed : map enclosure (range 0 21) = enclosures.
Proof. vm_compute. reflexivity. Qed.

Lemma reference_checks : all2 sample_ok (range 0 21) reference_sequence = true.
Proof.
  unfold sample_ok. rewrite (all2_map sample_ok_at enclosure), enclosures_computed.
  vm_compute. reflexivity.
Qed.

(** ** Checks on lists *)

Lemma all2_nth {A B : Type} (f : A -> B -> bool) (l1 : list A) :
  forall (l2 : list B) (k : nat) (a : A),
    all2 f l1 l2 = true -> nth_error l1 k = Some a ->
    exists b, nth_error l2 k = Some b /\ f a b = true.
Proof.
  induction l1 as [| x t IH]; intros [| b0 t2] k a H Hk; simpl in H;
    try discriminate.
  - destruct k; discriminate.
  - apply andb_prop in H. destruct H as [Hx Ht].
    destruct k as [| k].
    + simpl in Hk. injection Hk as <-. exists b0. split; [reflexivity | exact Hx].
    + simpl in Hk. simpl. apply (IH t2 k a Ht Hk).
Qed.

Lemma all2_Forall2 {A B : Type} (f : A -> B -> bool) (l1 : list A) :
  forall l2 : list B, all2 f l1 l2 = true ->
    Forall2 (fun a b => f a b = true) l1 l2.
Proof.
  induction l1 as [| x t IH]; intros [| b0 t2] H; simpl in H; try discriminate.
  - constructor.
  - apply andb_prop in H. destruct H as [Hx Ht].
    constructor; [exact Hx | apply IH, Ht].
Qed.

Lemma nth_error_range (lo hi : Z) (k : nat) :
  (k < Z.to_nat (hi - lo))%nat ->
  nth_error (range lo hi) k = Some (lo + Z.of_nat k)%Z.
Proof.
  intros Hk. unfold range.
  rewrite nth_error_map, nth_error_seq.
  destruct (Nat.ltb_spec k (Z.to_nat (hi - lo))) as [_ | Hge]; [reflexivity | lia].
Qed.

Lemma nth_error_sample (i : Z) :
  (0 <= i <= 20)%Z -> nth_error (range 0 21) (Z.to_nat i) = Some i.
Proof.
  intros Hi. rewrite nth_error_range by (simpl; lia).
  f_equal. lia.
Qed.

Lemma separated_nth (l : list Q) :
  separated l = true ->
  forall (m n : nat) (a b : Q), (m < n)%nat ->
    nth_error l m = Some a -> nth_error l n = Some b ->
    (a + rel6 * a <= b - rel6 * b)%Q.
Proof.
  induction l as [| x t IH]; intros H m n a b Hmn Hm Hn.
  - destruct m; discriminate.
  - simpl in H. apply andb_prop in H. destruct H as [Hx Ht].
    destruct n as [| n]; [lia |]. simpl in Hn.
    destruct m as [| m].
    + simpl in Hm. injection Hm as <-.
      unfold separated_from in Hx. rewrite forallb_forall in Hx.
      apply Qle_bool_iff, Hx. apply (nth_error_In _ _ Hn).
    + simpl in Hm. apply (IH Ht m n a b); [lia | exact Hm | exact Hn].
Qed.

(** ** Engines within tolerance of the integral *)

Lemma reference_separated : separated reference_sequence = true.
Proof. vm_compute. reflexivity. Qed.

Lemma reference_nonneg : Forall (fun r => 0 <= Q2R r) reference_sequence.
Proof.
  apply Forall_forall. intros r Hr.
  replace 0 with (Q2R 0) by (unfold Q2R; cbn [Qnum Qden]; lra).
  apply Qle_Rle.
  assert (H : forallb (fun q => Qle_bool 0 q) reference_sequence = true) by reflexivity.
  rewrite forallb_forall in H. apply Qle_bool_iff, H, Hr.
Qed.

(** With an engine within [1e-6] of the integral, the energy at sample
    [i] is within [5e-6], relatively, of the [i]-th reference value. *)
Lemma tolerant_energy (quad : Engine) (i : Z) (e : R) :
  tolerant 1e-6 quad -> (0 <= i <= 20)%Z ->
  energy quad (0.1 * IZR i) = Some e ->
  exists r, nth_error reference_sequence (Z.to_nat i) = Some r /\
            Rabs (e - Q2R r) <= 5e-6 * Q2R r.
Proof.
  intros Hq Hi He.
  destruct (all2_nth sample_ok (range 0 21) reference_sequence (Z.to_nat i) i
              reference_checks (nth_error_sample i Hi)) as (r & Hr & Hok).
  exists r. split; [exact Hr |].
  apply (sample_sound quad i r e Hok (Hq i Hi) He).
Qed.

Lemma tolerant_sweep (quad : Engine) :
  tolerant 1e-6 quad ->
  exists l s',
    sweep quad g_values = Some l /\
    cell8 quad fresh = Done s' /\
    stdout s' = lines_of l /\
    Forall2 (fun ge r => Rabs (snd ge - Q2R r) <= 5e-6 * Q2R r) l reference_sequence.
Proof.
  intros Hq.
  assert (Hq' : forall i, In i (range 0 21) ->
                  within 1e-6 quad (integrand (g_of i)) (y (g_of i)) 0 PI).
  { intros i Hi. apply range_bounds in Hi. apply Hq. lia. }
  destruct (sweep_total quad g_values) as [l Hl].
  { intros g Hg. apply in_map_iff in Hg. destruct Hg as (i & <- & Hi).
    apply (within_returns quad 1e-6), (Hq' i Hi). }
  destruct (sweep_loop_refines quad (range 0 21) fresh l Hl) as (s' & Hrun & Hout).
  exists l, s'. repeat split; try assumption.
  apply (samples_sound quad (range 0 21) reference_sequence l reference_checks Hq' Hl).
Qed.

Lemma tolerant_nonneg (l : list (R * R)) :
  forall refs,
    Forall2 (fun ge r => Rabs (snd ge - Q2R r) <= 5e-6 * Q2R r) l refs ->
    Forall (fun r => 0 <= Q2R r) refs ->
    Forall (fun ge => 0 <= snd ge) l.
Proof.
  induction l as [| ge l IH]; intros refs H2 Hr.
  - constructor.
  - inversion H2 as [| ? r ? refs' Hge Hrest]; subst.
    inversion Hr as [| ? ? Hr0 Hr']; subst.
    constructor; [| apply (IH refs' Hrest Hr')].
    apply Rabs_within in Hge. lra.
Qed.

Lemma tolerant_monotone (quad : Engine) (i j : Z) (e1 e2 : R) :
  tolerant 1e-6 quad -> (0 <= i)%Z -> (i <= j)%Z -> (j <= 20)%Z ->
  energy quad (0.1 * IZR i) = Some e1 ->
  energy quad (0.1 * IZR j) = Some e2 -> e1 <= e2.
Proof.
  intros Hq Hi Hij Hj He1 He2.
  destruct (Z.eq_dec i j) as [-> | Hne].
  - rewrite He1 in He2. injection He2 as <-. apply Rle_refl.
  - destruct (tolerant_energy quad i e1 Hq ltac:(lia) He1) as (r1 & Hr1 & H1).
    destruct (tolerant_energy quad j e2 Hq ltac:(lia) He2) as (r2 & Hr2 & H2).
    pose proof (separated_nth reference_sequence reference_separated
                  (Z.to_nat i) (Z.to_nat j) r1 r2 ltac:(lia) Hr1 Hr2) as Hsep.
    apply Qle_Rle in Hsep.
    rewrite Q2R_plus, Q2R_minus, !Q2R_mult, Q2R_rel6 in Hsep.
    apply Rabs_within in H1. apply Rabs_within in H2. lra.
Qed.

(** The recorded outputs are within [1e-9] of the exact energies. *)
Lemma recorded_sound (i : Z) (q : Q) (F : R -> R) :
  recorded_ok i q = true ->
  antiderivative (integrand (g_of i)) F 0 PI ->
  Rabs ((F PI - F 0) / PI - Q2R q) <= 1e-9.
Proof.
  intros Hok HF.
  pose proof (enclosure_sound i F HF) as Henc.
  unfold recorded_ok, recorded_ok_at in Hok.
  destruct (enclosure i) as [c t]. cbn [fst snd] in Henc.
  apply andb_prop in Hok. destruct Hok as [Hlo Hhi].
  apply Qle_bool_iff, Qle_Rle in Hlo. apply Qle_bool_iff, Qle_Rle in Hhi.
  rewrite Q2R_plus, Q2R_minus in Hlo, Hhi.
  replace (Q2R precision) with 1e-9 in Hlo, Hhi
    by (unfold precision, Q2R; cbn [Qnum Qden]; lra).
  apply Rabs_within in Henc. apply Rabs_le. lra.
Qed.

Lemma recorded_checks : all2 recorded_ok (range 0 21) Recorded.cell8_output = true.
Proof.
  unfold recorded_ok. rewrite (all2_map recorded_ok_at enclosure), enclosures_computed.
  vm_compute. reflexivity.
Qed.

Lemma recorded_accurate :
  Forall2 (fun i q =>
             forall F, antiderivative (integrand (0.1 * IZR i)) F 0 PI ->
                       Rabs ((F PI - F 0) / PI - Q2R q) <= 1e-9)
          (range 0 21) Recorded.cell8_output.
Proof.
  pose proof (all2_Forall2 recorded_ok _ _ recorded_checks) as H.
  revert H. generalize (range 0 21) Recorded.cell8_output.
  intros idx qs H. induction H as [| i q idx qs Hok _ IH]; constructor.
  - intros F HF. apply (recorded_sound i q F Hok HF).
  - exact IH.
Qed.

(** ** Shape and sign of the sweep result *)

Lemma energy_nonneg (quad : Engine) (g e : R) :
  positive quad -> energy quad g = Some e -> 0 <= e.
Proof.
  intros Hpos He. apply energy_some in He. destruct He as (p & ws & Hq & ->).
  assert (Hp : 0 <= fst p).
  { apply (Hpos (y g) (integrand g) 0 PI p ws).
    - left. apply PI_RGT_0.
    - apply y_defined_on.
    - intros x _. apply integrand_nonneg.
    - exact Hq. }
  apply Rmult_le_pos; [| exact Hp].
  unfold Rdiv. rewrite Rmult_1_l. left. apply Rinv_0_lt_compat, PI_RGT_0.
Qed.

Lemma sweep_defined (quad : Engine) (gs : list R) :
  completes quad -> exists l, sweep quad gs = Some l.
Proof.
  intros Hc. apply sweep_total. intros g _.
  apply quad_returns, Hc.
Qed.

Lemma recorded_nonneg :
  Forall (fun q => (0 <= q)%Q) Recorded.cell8_output.
Proof.
  repeat constructor; discriminate.
Qed.

Lemma sweep_shape (quad : Engine) (idx : list Z) :
  completes quad -> positive quad ->
  exists l s',
    sweep quad (map g_of idx) = Some l /\
    List.length l = List.length idx /\
    map fst l = map g_of idx /\
    (forall k i, nth_error idx k = Some i ->
       exists e, nth_error l k = Some (g_of i, e) /\
                 energy quad (g_of i) = Some e /\ 0 <= e) /\
    sweep_loop quad idx fresh = Done s' /\
    stdout s' = lines_of l.
Proof.
  intros Hc Hpos.
  destruct (sweep_defined quad (map g_of idx) Hc) as [l Hl].
  destruct (sweep_loop_refines quad idx fresh l Hl) as (s' & Hrun & Hout).
  exists l, s'. repeat split.
  - exact Hl.
  - rewrite (sweep_length _ _ _ Hl). apply length_map.
  - apply (sweep_fst _ _ _ Hl).
  - intros k i Hk.
    destruct (sweep_nth quad (map g_of idx) l k (g_of i) Hl) as (e & Hn & He).
    { rewrite nth_error_map, Hk. reflexivity. }
    exists e. repeat split; [exact Hn | exact He |].
    apply (energy_nonneg quad (g_of i) e Hpos He).
  - exact Hrun.
  - exact Hout.
Qed.

Lemma sweep_arrays (quad : Engine) :
  completes quad -> positive quad ->
  exists l s8 s10,
    sweep quad g_values = Some l /\
    List.length l = 21%nat /\
    Forall (fun ge => 0 <= snd ge) l /\
    cell8 quad fresh = Done s8 /\ stdout s8 = lines_of l /\
    cell10 quad fresh = Done s10 /\
    var_g s10 = Arr (map fst l) /\ arr_result s10 = map snd l.
Proof.
  intros Hc Hpos.
  destruct (sweep_defined quad g_values Hc) as [l Hl].
  destruct (sweep_loop_refines quad (range 0 21) fresh l Hl) as (s8 & Hrun & Hout).
  destruct (cell10_refines quad fresh l Hl) as (s10 & Hrun' & Hg & Hres & _).
  exists l, s8, s10. repeat split.
  - exact Hl.
  - rewrite (sweep_length _ _ _ Hl). reflexivity.
  - apply Forall_forall. intros [g e] Hin.
    destruct (In_nth_error _ _ Hin) as [k Hk].
    assert (Hg0 : nth_error g_values k = Some g).
    { rewrite <- (sweep_fst _ _ _ Hl), nth_error_map, Hk. reflexivity. }
    destruct (sweep_nth quad g_values l k g Hl Hg0) as (e' & Hn & He).
    rewrite Hk in Hn. injection Hn as <-.
    apply (energy_nonneg quad g e Hpos He).
  - exact Hrun.
  - exact Hout.
  - exact Hrun'.
  - rewrite Hg. f_equal. symmetry. apply (sweep_fst _ _ _ Hl).
  - exact Hres.
Qed.

Lemma sweep_tolerant_shape (quad : Engine) :
  tolerant 1e-6 quad ->
  exists l s8 s10,
    sweep quad g_values = Some l /\
    List.length l = 21%nat /\
    map fst l = g_values /\
    Forall (fun ge => 0 <= snd ge) l /\
    cell8 quad fresh = Done s8 /\ stdout s8 = lines_of l /\
    cell10 quad fresh = Done s10 /\
    var_g s10 = Arr (map fst l) /\ arr_result s10 = map snd l.
Proof.
  intros Hq.
  destruct (tolerant_sweep quad Hq) as (l & s8 & Hl & Hrun & Hout & Hclose).
  destruct (cell10_refines quad fresh l Hl) as (s10 & Hrun' & Hg & Hres & _).
  exists l, s8, s10. repeat split.
  - exact Hl.
  - rewrite (sweep_length _ _ _ Hl). reflexivity.
  - apply (sweep_fst _ _ _ Hl).
  - apply (tolerant_nonneg l reference_sequence Hclose reference_nonneg).
  - exact Hrun.
  - exact Hout.
  - exact Hrun'.
  - rewrite Hg. f_equal. symmetry. apply (sweep_fst _ _ _ Hl).
  - exact Hres.
Qed.

(** C6: the sweep finishes with one entry per sampled [g], in the order of
    the input, each entry the pair of its [g] and an energy that is a
    non-negative real; the loop of cell 8 prints exactly these energies and
    cell 10 leaves them in [result], next to the 21 sampled values in [g].
    This holds over any index sequence for an engine that returns on every
    integrand it can evaluate and gives non-negative estimates for
    non-negative integrands, and over the 21 sampled values for an engine
    whose estimates are within [1e-6] of the integrals.  The recorded run
    printed 21 non-negative numbers. *)
Theorem sweep_result_invariant :
  (forall quad : Engine, completes quad -> positive quad ->
     (forall idx : list Z, exists l s',
         sweep quad (map g_of idx) = Some l /\
         List.length l = List.length idx /\
         map fst l = map g_of idx /\
         (forall k i, nth_error idx k = Some i ->
            exists e, nth_error l k = Some (g_of i, e) /\
                      energy quad (g_of i) = Some e /\ 0 <= e) /\
         sweep_loop quad idx fresh = Done s' /\
         stdout s' = lines_of l) /\
     (exists l s8 s10,
         sweep quad g_values = Some l /\
         List.length l = 21%nat /\
         Forall (fun ge => 0 <= snd ge) l /\
         cell8 quad fresh = Done s8 /\ stdout s8 = lines_of l /\
         cell10 quad fresh = Done s10 /\
         var_g s10 = Arr (map fst l) /\ arr_result s10 = map snd l)) /\
  (forall quad : Engine, tolerant 1e-6 quad ->
     exists l s8 s10,
       sweep quad g_values = Some l /\
       List.length l = 21%nat /\
       map fst l = g_values /\
       Forall (fun ge => 0 <= snd ge) l /\
       cell8 quad fresh = Done s8 /\ stdout s8 = lines_of l /\
       cell10 quad fresh = Done s10 /\
       var_g s10 = Arr (map fst l) /\ arr_result s10 = map snd l) /\
  List.length Recorded.cell8_output = 21%nat /\
  Forall (fun q => (0 <= q)%Q) Recorded.cell8_output.
Proof.
  split; [| split; [| split]].
  - intros quad Hc Hpos. split.
    + intros idx. apply sweep_shape; assumption.
    + apply sweep_arrays; assumption.
  - intros quad Hq. apply sweep_tolerant_shape, Hq.
  - reflexivity.
  - exact recorded_nonneg.
Qed.

Lemma sweep_result_invariant_witness :
  (completes Doubles.midpoint /\ positive Doubles.midpoint /\
   exists l s8 s10,
     sweep Doubles.midpoint g_values = Some l /\
     List.length l = 21%nat /\
     Forall (fun ge => 0 <= snd ge) l /\
     cell8 Doubles.midpoint fresh = Done s8 /\ stdout s8 = lines_of l /\
     cell10 Doubles.midpoint fresh = Done s10 /\
     var_g s10 = Arr (map fst l) /\ arr_result s10 = map snd l) /\
  (tolerant 1e-6 Doubles.newton /\
   exists l s8 s10,
     sweep Doubles.newton g_values = Some l /\
     List.length l = 21%nat /\
     map fst l = g_values /\
     Forall (fun ge => 0 <= snd ge) l /\
     cell8 Doubles.newton fresh = Done s8 /\ stdout s8 = lines_of l /\
     cell10 Doubles.newton fresh = Done s10 /\
     var_g s10 = Arr (map fst l) /\ arr_result s10 = map snd l).
Proof.
  split.
  - split; [exact midpoint_completes |]. split; [exact midpoint_positive |].
    exact (proj2 (proj1 sweep_result_invariant Doubles.midpoint
                    midpoint_completes midpoint_positive)).
  - split; [exact newton_tolerant |].
    exact (proj1 (proj2 sweep_result_invariant) Doubles.newton newton_tolerant).
Defined.

(** ** Monotonicity for [g >= 1] *)

Lemma radicand_monotone (g1 g2 x : R) :
  1 <= g1 -> g1 <= g2 -> radicand g1 x <= radicand g2 x.
Proof.
  intros H1 H12. rewrite !radicand_simplified.
  unfold Recorded.simplified_radicand.
  pose proof (COS_bound x) as [_ Hc].
  assert (H : 0 <= (g2 - g1) * (g2 + g1 - 2 * cos x)).
  { apply Rmult_le_pos; lra. }
  lra.
Qed.

Lemma integrand_monotone (g1 g2 x : R) :
  1 <= g1 -> g1 <= g2 -> integrand g1 x <= integrand g2 x.
Proof.
  intros H1 H12. unfold integrand.
  apply sqrt_le_1_alt, radicand_monotone; assumption.
Qed.

Lemma energy_monotone (quad : Engine) (g1 g2 e1 e2 : R) :
  monotone quad -> 1 <= g1 -> g1 <= g2 ->
  energy quad g1 = Some e1 -> energy quad g2 = Some e2 -> e1 <= e2.
Proof.
  intros Hm H1 H12 He1 He2.
  apply energy_some in He1. destruct He1 as (p1 & ws1 & Hq1 & ->).
  apply energy_some in He2. destruct He2 as (p2 & ws2 & Hq2 & ->).
  apply Rmult_le_compat_l.
  - unfold Rdiv. rewrite Rmult_1_l. left. apply Rinv_0_lt_compat, PI_RGT_0.
  - apply (Hm (y g1) (integrand g1) (y g2) (integrand g2) 0 PI p1 ws1 p2 ws2).
    + left. apply PI_RGT_0.
    + apply y_defined_on.
    + apply y_defined_on.
    + intros x _. apply integrand_monotone; assumption.
    + exact Hq1.
    + exact Hq2.
Qed.

Lemma nondecreasing_head (a : Q) (l : list Q) :
  Digits.nondecreasing (a :: l) = true ->
  forall k q, nth_error l k = Some q -> (a <= q)%Q.
Proof.
  revert a. induction l as [| b t IH]; intros a H k q Hk.
  - destruct k; discriminate.
  - simpl in H. apply andb_prop in H. destruct H as [Hab Ht].
    apply Qle_bool_iff in Hab.
    destruct k as [| k].
    + simpl in Hk. injection Hk as <-. exact Hab.
    + simpl in Hk. apply Qle_trans with b; [exact Hab |].
      apply (IH b Ht k q Hk).
Qed.

Lemma nondecreasing_nth (l : list Q) :
  Digits.nondecreasing l = true ->
  forall i j q1 q2, (i <= j)%nat ->
    nth_error l i = Some q1 -> nth_error l j = Some q2 -> (q1 <= q2)%Q.
Proof.
  induction l as [| a t IH]; intros H i j q1 q2 Hij Hi Hj.
  - destruct i; discriminate.
  - assert (Ht : Digits.nondecreasing t = true).
    { destruct t as [| b t']; [reflexivity |].
      simpl in H. apply andb_prop in H. apply H. }
    destruct i as [| i], j as [| j].
    + simpl in Hi, Hj. injection Hi as <-. injection Hj as <-. apply Qle_refl.
    + simpl in Hi, Hj. injection Hi as <-.
      apply (nondecreasing_head a t H j q2 Hj).
    + lia.
    + simpl in Hi, Hj. apply (IH Ht i j q1 q2); [lia | exact Hi | exact Hj].
Qed.

(** C5: for [1 <= g1 <= g2] the integrand at [g1] lies below the integrand
    at [g2] at every [x], so with an engine whose estimate grows with the
    integrand the energies satisfy [e(g1) <= e(g2)], in particular at the
    sampled values [g = 1.0, 1.1, ..., 2.0] (indices 10 to 20); the same
    holds at these sampled values for an engine whose estimates are within
    [1e-6] of the integrals; and the eleven values the recorded run printed
    for these indices are non-decreasing. *)
Theorem energy_nondecreasing_from_one :
  (forall g1 g2 x : R, 1 <= g1 -> g1 <= g2 -> integrand g1 x <= integrand g2 x) /\
  (forall quad : Engine, monotone quad ->
     forall (i j : Z) (e1 e2 : R), (10 <= i)%Z -> (i <= j)%Z ->
       energy quad (0.1 * IZR i) = Some e1 ->
       energy quad (0.1 * IZR j) = Some e2 -> e1 <= e2) /\
  (forall quad : Engine, tolerant 1e-6 quad ->
     forall (i j : Z) (e1 e2 : R), (10 <= i)%Z -> (i <= j)%Z -> (j <= 20)%Z ->
       energy quad (0.1 * IZR i) = Some e1 ->
       energy quad (0.1 * IZR j) = Some e2 -> e1 <= e2) /\
  (forall (i j : nat) (q1 q2 : Q), (10 <= i)%nat -> (i <= j)%nat ->
     nth_error Recorded.cell8_output i = Some q1 ->
     nth_error Recorded.cell8_output j = Some q2 -> (q1 <= q2)%Q).
Proof.
  split; [| split; [| split]].
  - intros g1 g2 x. apply integrand_monotone.
  - intros quad Hm i j e1 e2 Hi Hij.
    apply (energy_monotone quad); [exact Hm | |].
    + apply IZR_le in Hi. lra.
    + apply IZR_le in Hij. lra.
  - intros quad Hq i j e1 e2 Hi Hij Hj.
    apply (tolerant_monotone quad i j e1 e2 Hq); lia.
  - intros i j q1 q2 _ Hij.
    apply nondecreasing_nth; [reflexivity | exact Hij].
Qed.

Lemma midpoint_energy (g : R) :
  energy Doubles.midpoint g =
  Some ((1 / PI) * ((PI - 0) * integrand g ((0 + PI) / 2))).
Proof.
  unfold energy, energy_of, Doubles.midpoint. rewrite y_defined. reflexivity.
Qed.

Lemma newton_energy (g : R) :
  exists e, energy Doubles.newton g = Some e.
Proof.
  unfold energy, energy_of, Doubles.newton. eexists. reflexivity.
Qed.

Lemma energy_nondecreasing_from_one_witness :
  (monotone Doubles.midpoint /\ (10 <= 10)%Z /\ (10 <= 20)%Z /\
   (1 / PI) * ((PI - 0) * integrand (0.1 * IZR 10) ((0 + PI) / 2)) <=
   (1 / PI) * ((PI - 0) * integrand (0.1 * IZR 20) ((0 + PI) / 2))) /\
  (tolerant 1e-6 Doubles.newton /\ (10 <= 10)%Z /\ (10 <= 20)%Z /\ (20 <= 20)%Z /\
   forall e1 e2,
     energy Doubles.newton (0.1 * IZR 10) = Some e1 ->
     energy Doubles.newton (0.1 * IZR 20) = Some e2 -> e1 <= e2).
Proof.
  split.
  - split; [exact midpoint_monotone |]. split; [lia |]. split; [lia |].
    exact (proj1 (proj2 energy_nondecreasing_from_one) Doubles.midpoint
             midpoint_monotone 10%Z 20%Z _ _ ltac:(lia) ltac:(lia)
             (midpoint_energy _) (midpoint_energy _)).
  - split; [exact newton_tolerant |].
    split; [lia |]. split; [lia |]. split; [lia |].
    intros e1 e2.
    exact (proj1 (proj2 (proj2 energy_nondecreasing_from_one)) Doubles.newton
             newton_tolerant 10%Z 20%Z e1 e2 ltac:(lia) ltac:(lia) ltac:(lia)).
Defined.

(** ** The end-to-end sequence *)

Lemma agree_all_Forall2 (n : Z) (l1 : list Q) :
  forall l2, Digits.agree_all n l1 l2 = true ->
    Forall2 (fun a b => Digits.agree n a b = true) l1 l2.
Proof.
  induction l1 as [| a t IH]; intros [| b t2] H; simpl in H; try discriminate.
  - constructor.
  - apply andb_prop in H. destruct H as [Hab Ht].
    constructor; [exact Hab | apply IH, Ht].
Qed.

Lemma agree_spec (n : Z) (a b : Q) :
  Digits.agree n a b = true ->
  (Digits.round_sig n a == Digits.round_sig n b)%Q /\
  (Qabs (a - b) <= (5 # 1) * Digits.pow10 (- n) * Qabs b)%Q.
Proof.
  unfold Digits.agree. intros H. apply andb_prop in H. destruct H as [H1 H2].
  split; [apply Qeq_bool_iff, H1 | apply Qle_bool_iff, H2].
Qed.

(** C1: for the sweep over [g = 0.1*i], [i] from 0 to 20, the sequence of
    energies agrees in order with the reference sequence to 6 significant
    digits.  For every engine whose estimates are within [1e-6] of the
    integrals, the 21 energies the sweep cell prints are within [5e-6],
    relatively, of the reference values.  The 21 values the recorded run
    printed round to the same 6-digit decimals as the reference values and
    differ from them by at most [5e-6] relatively (in fact [5e-9]); each of
    them is within [1e-9] of the exact energy
    [(1/pi) * integral_0^pi integrand(g, x) dx]. *)
Theorem sweep_reproduces_reference :
  (forall quad : Engine, tolerant 1e-6 quad ->
     exists l s',
       sweep quad g_values = Some l /\
       cell8 quad fresh = Done s' /\
       stdout s' = lines_of l /\
       Forall2 (fun ge r => Rabs (snd ge - Q2R r) <= 5e-6 * Q2R r)
               l reference_sequence) /\
  List.length g_values = 21%nat /\
  List.length Recorded.cell8_output = List.length g_values /\
  List.length reference_sequence = List.length g_values /\
  Forall2 (fun a b =>
             (Digits.round_sig 6 a == Digits.round_sig 6 b)%Q /\
             (Qabs (a - b) <= (5 # 1) * Digits.pow10 (- 6) * Qabs b)%Q /\
             (Qabs (a - b) <= (5 # 1) * Digits.pow10 (- 9) * Qabs b)%Q)
          Recorded.cell8_output reference_sequence /\
  Forall2 (fun i q =>
             forall F, antiderivative (integrand (0.1 * IZR i)) F 0 PI ->
                       Rabs ((F PI - F 0) / PI - Q2R q) <= 1e-9)
          (range 0 21) Recorded.cell8_output.
Proof.
  split; [exact tolerant_sweep |].
  split; [reflexivity |]. split; [reflexivity |]. split; [reflexivity |].
  split; [| exact recorded_accurate].
  assert (H6 := agree_all_Forall2 6 Recorded.cell8_output reference_sequence eq_refl).
  assert (H9 := agree_all_Forall2 9 Recorded.cell8_output reference_sequence eq_refl).
  revert H6 H9.
  generalize Recorded.cell8_output reference_sequence.
  intros qs refs H6. induction H6 as [| a b t1 t2 Hab _ IH]; intros H9.
  - constructor.
  - inversion H9 as [| ? ? ? ? Hab9 Ht9]; subst.
    constructor; [| apply IH, Ht9].
    destruct (agree_spec 6 a b Hab) as [Hr Hd].
    destruct (agree_spec 9 a b Hab9) as [_ Hd9].
    repeat split; assumption.
Qed.

Lemma sweep_reproduces_reference_witness :
  tolerant 1e-6 Doubles.newton /\
  exists l s',
    sweep Doubles.newton g_values = Some l /\
    cell8 Doubles.newton fresh = Done s' /\
    stdout s' = lines_of l /\
    Forall2 (fun ge r => Rabs (snd ge - Q2R r) <= 5e-6 * Q2R r)
            l reference_sequence.
Proof.
  split; [exact newton_tolerant |].
  exact (proj1 sweep_reproduces_reference Doubles.newton newton_tolerant).
Defined.

(** * Further properties of the cells *)

(** ** The loops of cells 8 and 10, finished or stopped *)

Lemma for_in_app (body : Z -> Env -> Run) (l1 l2 : list Z) :
  forall s, for_in (l1 ++ l2) body s = for_in l1 body s >>= for_in l2 body.
Proof.
  induction l1 as [| i rest IH]; intros s.
  - reflexivity.
  - simpl. destruct (body i (set_i i s)) as [s1 | exn s1]; simpl.
    + apply IH.
    + reflexivity.
Qed.

Lemma energy_none (quad : Engine) (g : R) :
  energy quad g = None -> exists exn, quad (y g) 0 PI = Raise exn.
Proof.
  unfold energy, energy_of. destruct (quad (y g) 0 PI) as [p ws | exn].
  - discriminate.
  - intros _. exists exn. reflexivity.
Qed.

(** A sweep that leaves no result stopped at a first index whose engine
    call raised. *)
Lemma sweep_none (quad : Engine) (idx : list Z) :
  sweep quad (map g_of idx) = None ->
  exists pre i post l exn,
    idx = pre ++ i :: post /\
    sweep quad (map g_of pre) = Some l /\
    quad (y (g_of i)) 0 PI = Raise exn.
Proof.
  induction idx as [| i rest IH]; intros H.
  - discriminate.
  - simpl in H. destruct (energy quad (g_of i)) as [e |] eqn:He.
    + destruct (sweep quad (map g_of rest)) as [l |] eqn:Hrest; [discriminate |].
      destruct (IH eq_refl) as (pre & j & post & l & exn & -> & Hpre & Hq).
      exists (i :: pre), j, post, ((g_of i, e) :: l), exn.
      split; [reflexivity |]. split; [| exact Hq].
      simpl. rewrite He, Hpre. reflexivity.
    + apply energy_none in He. destruct He as [exn Hq].
      exists [], i, rest, [], exn. repeat split. exact Hq.
Qed.

Lemma skipn_update (l : list R) :
  forall n m v, (n < m)%nat -> skipn m (update l n v) = skipn m l.
Proof.
  induction l as [| h t IH]; intros n m v Hnm.
  - destruct n; reflexivity.
  - destruct m as [| m]; [lia |]. destruct n as [| n]; simpl.
    + reflexivity.
    + apply IH. lia.
Qed.

Lemma skipn_zeros (n : nat) : forall k, skipn k (zeros n) = zeros (n - k).
Proof.
  induction n as [| n IH]; intros k.
  - destruct k; reflexivity.
  - destruct k as [| k]; [reflexivity |]. simpl. apply IH.
Qed.

Section ArraysMore.

Variable quad : Engine.

(** The second loop of cell 10 over a stretch [gs] of the array [g],
    with [done] before it and [rest] after it. *)
Lemma cell10_loop_stretch (gs : list R) :
  forall done rest s l,
    var_g s = Arr (done ++ gs ++ rest) ->
    List.length (arr_result s) = List.length (done ++ gs ++ rest) ->
    sweep quad gs = Some l ->
    exists s',
      for_in (map Z.of_nat (seq (List.length done) (List.length gs)))
             (cell10_body quad) s = Done s' /\
      var_g s' = var_g s /\
      arr_result s' =
        firstn (List.length done) (arr_result s) ++ map snd l ++
        skipn (List.length done + List.length gs) (arr_result s) /\
      stdout s' = stdout s.
Proof.
  induction gs as [| g more IH]; intros done rest s l Hg Hlen Hl.
  - simpl in Hl. injection Hl as <-. exists s. simpl. repeat split.
    rewrite Nat.add_0_r, firstn_skipn. reflexivity.
  - apply sweep_cons in Hl. destruct Hl as (e & l' & He & Hrest & ->).
    apply energy_some in He. destruct He as (p & ws & Hq & ->).
    change (var_g s = Arr (done ++ g :: (more ++ rest))) in Hg.
    change (List.length (arr_result s) = List.length (done ++ g :: (more ++ rest))) in Hlen.
    assert (Hk : (List.length done < List.length (arr_result s))%nat).
    { rewrite Hlen, length_app. simpl. lia. }
    simpl seq. simpl map. simpl for_in.
    unfold cell10_body at 1. unfold getitem, setitem. simpl.
    rewrite Hg. cbv iota. rewrite length_app. simpl List.length.
    rewrite index_of_nat by lia.
    rewrite nth_error_middle, Hq. simpl.
    rewrite index_of_nat by exact Hk.
    simpl.
    match goal with
    | |- exists s', for_in _ _ ?s1 = _ /\ _ =>
        destruct (IH (done ++ [g]) rest s1 l') as (s' & Hrun & Hg' & Hres & Hout)
    end.
    + simpl. rewrite Hg, <- app_assoc. reflexivity.
    + simpl. rewrite length_update, Hlen, <- app_assoc. reflexivity.
    + exact Hrest.
    + exists s'. rewrite length_app in Hrun. simpl in Hrun.
      rewrite Nat.add_1_r in Hrun.
      split; [exact Hrun |]. split; [| split].
      * rewrite Hg'. simpl. exact Hg.
      * rewrite Hres. simpl arr_result.
        rewrite length_app. simpl List.length. rewrite Nat.add_1_r.
        rewrite firstn_update by exact Hk.
        rewrite skipn_update by lia.
        replace (List.length done + S (List.length more))%nat
          with (S (List.length done) + List.length more)%nat by lia.
        rewrite <- app_assoc. reflexivity.
      * rewrite Hout. reflexivity.
Qed.

(** An engine call that raises at the entry after the stretch stops the
    loop there. *)
Lemma cell10_loop_aborts (pre : list R) (g : R) (post : list R) (s : Env)
      (l : list (R * R)) (exn : string) :
  var_g s = Arr (pre ++ g :: post) ->
  List.length (arr_result s) = List.length (pre ++ g :: post) ->
  sweep quad pre = Some l ->
  quad (y g) 0 PI = Raise exn ->
  exists s',
    for_in (map Z.of_nat (seq 0 (List.length (pre ++ g :: post))))
           (cell10_body quad) s = Aborted exn s' /\
    var_g s' = var_g s /\
    arr_result s' =
      map snd l ++ skipn (List.length pre) (arr_result s) /\
    stdout s' = stdout s.
Proof.
  intros Hg Hlen Hl Hq.
  destruct (cell10_loop_stretch pre [] (g :: post) s l Hg Hlen Hl)
    as (s1 & Hrun & Hg1 & Hres1 & Hout1).
  simpl in Hrun, Hres1.
  rewrite length_app. simpl List.length.
  rewrite seq_app, map_app, for_in_app, Hrun. simpl.
  unfold cell10_body at 1. unfold getitem. simpl.
  rewrite Hg1, Hg. cbv iota. rewrite length_app. simpl List.length.
  rewrite index_of_nat by lia.
  rewrite (nth_error_middle pre post g), Hq. simpl.
  eexists. split; [reflexivity |]. simpl.
  split; [rewrite Hg1; exact Hg |]. split; [exact Hres1 | exact Hout1].
Qed.

(** Cell 10 when the engine call of one sampled value raises. *)
Lemma cell10_aborts (s : Env) (pre : list Z) (i : Z) (post : list Z)
      (l : list (R * R)) (exn : string) :
  range 0 21 = pre ++ i :: post ->
  sweep quad (map g_of pre) = Some l ->
  quad (y (g_of i)) 0 PI = Raise exn ->
  exists s',
    cell10 quad s = Aborted exn s' /\
    var_g s' = Arr g_values /\
    arr_result s' = map snd l ++ zeros (21 - List.length pre) /\
    stdout s' = stdout s.
Proof.
  intros Hidx Hl Hq. unfold cell10.
  destruct (cell10_fill s) as (s0 & Hfill & Hg & Hres & Hout).
  cbv zeta. rewrite Hfill. unfold and_then.
  assert (Hgv : g_values = map g_of pre ++ g_of i :: map g_of post).
  { unfold g_values. fold g_of. rewrite Hidx, map_app. reflexivity. }
  assert (Hn : List.length (map g_of pre ++ g_of i :: map g_of post) = 21%nat).
  { rewrite <- Hgv. reflexivity. }
  assert (Hr : range 0 21 =
               map Z.of_nat (seq 0 (List.length (map g_of pre ++ g_of i :: map g_of post)))).
  { rewrite Hn. reflexivity. }
  rewrite Hr.
  destruct (cell10_loop_aborts (map g_of pre) (g_of i) (map g_of post) s0 l exn)
    as (s' & Hrun & Hg' & Hres' & Hout').
  - rewrite Hg, Hgv. reflexivity.
  - rewrite Hres, Hn. reflexivity.
  - exact Hl.
  - exact Hq.
  - exists s'. split; [exact Hrun |]. split; [| split].
    + rewrite Hg'. exact Hg.
    + rewrite Hres', Hres, length_map. f_equal.
      apply skipn_zeros.
    + rewrite Hout'. exact Hout.
Qed.

End ArraysMore.

(** The loop of cell 8 does not touch the array [result]. *)
Lemma sweep_loop_result (quad : Engine) (idx : list Z) :
  forall s, arr_result (final_env (sweep_loop quad idx s)) = arr_result s.
Proof.
  induction idx as [| i rest IH]; intros s.
  - reflexivity.
  - unfold sweep_loop. simpl.
    destruct (quad (y (g_of i)) 0 PI) as [p ws | exn] eqn:Hq.
    + rewrite (cell8_body_returned quad i _ p ws Hq). simpl.
      match goal with
      | |- arr_result (final_env (for_in rest _ ?s1)) = _ => specialize (IH s1)
      end.
      exact IH.
    + rewrite (cell8_body_raised quad i _ exn Hq). reflexivity.
Qed.

Lemma length_range (lo hi : Z) : List.length (range lo hi) = Z.to_nat (hi - lo).
Proof. unfold range. rewrite length_map, length_seq. reflexivity. Qed.

(** X1: cells 8 and 10 run the same sweep, for every engine and whatever
    the kernels hold beforehand.  Either both finish, and the lines cell 8
    prints are, in order, the entries of the array [result] that cell 10
    leaves (next to [g] holding the 21 sampled values, nothing printed by
    cell 10); or both stop with the same exception at the same point [n],
    the lines cell 8 printed being the first [n] entries of [result] and
    the remaining entries still the zeros of [np.zeros(21)]. *)
Theorem cell10_stores_what_cell8_prints (quad : Engine) (s8 s10 : Env) :
  (exists s8' s10',
     cell8 quad s8 = Done s8' /\ cell10 quad s10 = Done s10' /\
     stdout s8' = stdout s8 ++ map LNum (arr_result s10') /\
     var_g s10' = Arr g_values /\ stdout s10' = stdout s10) \/
  (exists exn s8' s10' n,
     cell8 quad s8 = Aborted exn s8' /\ cell10 quad s10 = Aborted exn s10' /\
     (n <= 20)%nat /\
     stdout s8' = stdout s8 ++ map LNum (firstn n (arr_result s10')) /\
     skipn n (arr_result s10') = zeros (21 - n) /\
     var_g s10' = Arr g_values /\ stdout s10' = stdout s10).
Proof.
  destruct (sweep quad g_values) as [l |] eqn:Hl.
  - left.
    destruct (sweep_loop_refines quad (range 0 21) s8 l Hl) as (s8' & H8 & Hout8).
    destruct (cell10_refines quad s10 l Hl) as (s10' & H10 & Hg & Hres & Hout10).
    exists s8', s10'. split; [exact H8 |]. split; [exact H10 |].
    split; [| split; [exact Hg | exact Hout10]].
    rewrite Hout8, Hres, map_map. reflexivity.
  - right.
    destruct (sweep_none quad (range 0 21) Hl)
      as (pre & i & post & l & exn & Hidx & Hpre & Hq).
    destruct (sweep_loop_aborts quad pre s8 l i post exn Hpre Hq)
      as (s8' & H8 & Hout8).
    destruct (cell10_aborts quad s10 pre i post l exn Hidx Hpre Hq)
      as (s10' & H10 & Hg & Hres & Hout10).
    assert (Hn : (List.length pre + S (List.length post) = 21)%nat).
    { pose proof (f_equal (@List.length Z) Hidx) as E.
      rewrite length_range, length_app in E. simpl in E. lia. }
    assert (Hlen : List.length (map snd l) = List.length pre).
    { rewrite length_map, (sweep_length quad _ _ Hpre), length_map. reflexivity. }
    exists exn, s8', s10', (List.length pre).
    split; [unfold cell8; rewrite Hidx; exact H8 |]. split; [exact H10 |].
    split; [lia |]. split; [| split; [| split; [exact Hg | exact Hout10]]].
    + rewrite Hout8, Hres, <- Hlen, firstn_app, firstn_all, Nat.sub_diag.
      simpl firstn. rewrite app_nil_r, map_map. reflexivity.
    + rewrite Hres, <- Hlen, skipn_app, Nat.sub_diag, skipn_all. simpl.
      rewrite Hlen. reflexivity.
Qed.

Lemma range_split (k : nat) :
  (k <= 20)%nat ->
  range 0 21 = map Z.of_nat (seq 0 k) ++ Z.of_nat k :: map Z.of_nat (seq (S k) (20 - k)).
Proof.
  intros Hk.
  assert (E : range 0 21 = map Z.of_nat (seq 0 21)) by reflexivity.
  rewrite E.
  replace 21%nat with (k + S (20 - k))%nat at 1 by lia.
  rewrite seq_app, map_app. reflexivity.
Qed.

(** X2: when the engine call of sample [k] is the first to raise, cell 10
    stops with that exception before anything is plotted.  The array [g]
    is complete, [result] keeps its 21 entries: the entries before [k]
    hold the energies of their samples, the entry [k] and all later ones
    are still [0.0], the value [np.zeros(21)] gave them. *)
Theorem cell10_partial_result (quad : Engine) (s : Env) (k : nat) (exn : string) :
  (k <= 20)%nat ->
  (forall j, (j < k)%nat ->
     exists p ws, quad (y (g_of (Z.of_nat j))) 0 PI = Return p ws) ->
  quad (y (g_of (Z.of_nat k))) 0 PI = Raise exn ->
  exists s',
    cell10 quad s = Aborted exn s' /\
    var_g s' = Arr g_values /\
    List.length (arr_result s') = 21%nat /\
    (forall j, (j < k)%nat ->
       exists e, energy quad (g_of (Z.of_nat j)) = Some e /\
                 nth_error (arr_result s') j = Some e) /\
    (forall j, (k <= j <= 20)%nat -> nth_error (arr_result s') j = Some 0) /\
    stdout s' = stdout s.
Proof.
  intros Hk Hpre Hq.
  destruct (sweep_total quad (map g_of (map Z.of_nat (seq 0 k)))) as [l Hl].
  { intros g Hin. apply in_map_iff in Hin. destruct Hin as (i & <- & Hin).
    apply in_map_iff in Hin. destruct Hin as (j & <- & Hin).
    apply in_seq in Hin. apply Hpre. lia. }
  destruct (cell10_aborts quad s _ _ _ l exn (range_split k Hk) Hl Hq)
    as (s' & Hrun & Hgv & Hres & Hout).
  rewrite length_map, length_seq in Hres.
  assert (Hlen : List.length (map snd l) = k).
  { rewrite length_map, (sweep_length quad _ _ Hl), !length_map, length_seq.
    reflexivity. }
  exists s'. split; [exact Hrun |]. split; [exact Hgv |].
  split; [| split; [| split; [| exact Hout]]].
  - rewrite Hres, length_app, Hlen. unfold zeros. rewrite repeat_length. lia.
  - intros j Hj.
    destruct (sweep_nth quad _ l j (g_of (Z.of_nat j)) Hl) as (e & Hnth & He).
    { rewrite !nth_error_map, nth_error_seq.
      destruct (Nat.ltb_spec j k) as [_ | Hc]; [reflexivity | lia]. }
    exists e. split; [exact He |].
    rewrite Hres, nth_error_app1 by lia.
    rewrite nth_error_map, Hnth. reflexivity.
  - intros j Hj. rewrite Hres, nth_error_app2 by lia.
    rewrite Hlen. unfold zeros. apply nth_error_repeat. lia.
Qed.

(** X3: cell 10 never fails on an array index.  Both arrays have 21
    entries and both loops run over [range(0, 21)], so whenever the cell
    stops, for whatever engine and earlier kernel state, the exception is
    one the engine raised at one of the 21 sampled values. *)
Theorem cell10_never_index_error (quad : Engine) (s : Env) (exn : string) :
  (exists s', cell10 quad s = Aborted exn s') ->
  exists i, (0 <= i <= 20)%Z /\ quad (y (0.1 * IZR i)) 0 PI = Raise exn.
Proof.
  intros [s' Hrun].
  destruct (sweep quad g_values) as [l |] eqn:Hl.
  - destruct (cell10_refines quad s l Hl) as (s1 & H1 & _).
    rewrite H1 in Hrun. discriminate Hrun.
  - destruct (sweep_none quad (range 0 21) Hl)
      as (pre & i & post & l & exn' & Hidx & Hpre & Hq).
    destruct (cell10_aborts quad s pre i post l exn' Hidx Hpre Hq)
      as (s1 & H1 & _).
    rewrite H1 in Hrun. injection Hrun as -> _.
    exists i. split; [| exact Hq].
    assert (Hin : In i (range 0 21)).
    { rewrite Hidx. apply in_or_app. right. left. reflexivity. }
    apply range_bounds in Hin. lia.
Qed.

Lemma cell10_partial_result_witness :
  exists s',
    cell10 Faulty.endpoint_shy fresh = Aborted "singular endpoint" s' /\
    var_g s' = Arr g_values /\
    List.length (arr_result s') = 21%nat /\
    (forall j, (j < 10)%nat ->
       exists e, energy Faulty.endpoint_shy (g_of (Z.of_nat j)) = Some e /\
                 nth_error (arr_result s') j = Some e) /\
    (forall j, (10 <= j <= 20)%nat -> nth_error (arr_result s') j = Some 0) /\
    stdout s' = stdout fresh.
Proof.
  apply (cell10_partial_result Faulty.endpoint_shy fresh 10 "singular endpoint").
  - lia.
  - intros j Hj. apply endpoint_shy_returns. unfold g_of.
    assert (H : IZR (Z.of_nat j) < IZR 10) by (apply IZR_lt; lia). lra.
  - replace (g_of (Z.of_nat 10)) with 1 by (unfold g_of; simpl; lra).
    exact endpoint_shy_raises.
Defined.

Lemma cell10_never_index_error_witness :
  (exists s', cell10 Doubles.raising fresh = Aborted NonConvergence s') /\
  exists i, (0 <= i <= 20)%Z /\
            Doubles.raising (y (0.1 * IZR i)) 0 PI = Raise NonConvergence.
Proof.
  assert (H : exists s', cell10 Doubles.raising fresh = Aborted NonConvergence s').
  { destruct (cell10_aborts Doubles.raising fresh [] 0%Z (range 1 21) []
                NonConvergence eq_refl eq_refl eq_refl) as (s' & Hrun & _).
    exists s'. exact Hrun. }
  split; [exact H |].
  exact (cell10_never_index_error Doubles.raising fresh NonConvergence H).
Defined.

(** X4: cells 6 and 10 do not depend on what earlier cells left in the
    kernel.  Started in any two kernels, cell 6 ends the same way in both:
    it binds [g = 1.0], the same pair [I] and the same [e = I[0]/pi], and
    prints that pair and that number after whatever was printed before, or
    it stops with the same exception having printed nothing.  Cell 10
    likewise ends the same way in both, with the same arrays [g] and
    [result]. *)
Theorem numeric_cells_reset_their_state (quad : Engine) (s1 s2 : Env) :
  match cell6 quad s1, cell6 quad s2 with
  | Done a, Done b =>
      var_g a = Num 1 /\ var_g b = Num 1 /\ var_I a = var_I b /\
      var_e a = (1 / PI) * fst (var_I a) /\ var_e b = var_e a /\
      stdout a = stdout s1 ++ [LPair (var_I a); LNum (var_e a)] /\
      stdout b = stdout s2 ++ [LPair (var_I a); LNum (var_e a)]
  | Aborted e1 a, Aborted e2 b =>
      e1 = e2 /\ stdout a = stdout s1 /\ stdout b = stdout s2
  | _, _ => False
  end /\
  match cell10 quad s1, cell10 quad s2 with
  | Done a, Done b => var_g a = var_g b /\ arr_result a = arr_result b
  | Aborted e1 a, Aborted e2 b =>
      e1 = e2 /\ var_g a = var_g b /\ arr_result a = arr_result b
  | _, _ => False
  end.
Proof.
  split.
  - unfold cell6, assign_I, call_quad. simpl.
    destruct (quad (y 1) 0 PI) as [p ws | exn]; simpl.
    + repeat split; rewrite <- app_assoc; reflexivity.
    + repeat split.
  - destruct (sweep quad g_values) as [l |] eqn:Hl.
    + destruct (cell10_refines quad s1 l Hl) as (a & Ha & Hga & Hra & _).
      destruct (cell10_refines quad s2 l Hl) as (b & Hb & Hgb & Hrb & _).
      rewrite Ha, Hb. split; congruence.
    + destruct (sweep_none quad (range 0 21) Hl)
        as (pre & i & post & l & exn & Hidx & Hpre & Hq).
      destruct (cell10_aborts quad s1 pre i post l exn Hidx Hpre Hq)
        as (a & Ha & Hga & Hra & _).
      destruct (cell10_aborts quad s2 pre i post l exn Hidx Hpre Hq)
        as (b & Hb & Hgb & Hrb & _).
      rewrite Ha, Hb. repeat split; congruence.
Qed.

(** What the globals hold after a loop of cell 8 that finished. *)
Lemma sweep_loop_last (quad : Engine) (pre : list Z) (i : Z) (s s' : Env) :
  sweep_loop quad (pre ++ [i]) s = Done s' ->
  var_i s' = i /\ var_g s' = Num (0.1 * IZR i) /\
  (exists ws, quad (y (0.1 * IZR i)) 0 PI = Return (var_I s') ws) /\
  var_e s' = (1 / PI) * fst (var_I s') /\
  (exists out, stdout s' = out ++ [LNum (var_e s')]) /\
  arr_result s' = arr_result s.
Proof.
  unfold sweep_loop. rewrite for_in_app.
  pose proof (sweep_loop_result quad pre s) as Hr. unfold sweep_loop in Hr.
  destruct (for_in pre (cell8_body quad) s) as [s1 | exn s1]; simpl;
    [| discriminate].
  simpl in Hr.
  destruct (quad (y (g_of i)) 0 PI) as [p ws | exn] eqn:Hq.
  - rewrite (cell8_body_returned quad i _ p ws Hq). simpl.
    intros [= <-]. simpl. repeat split.
    + exists ws. exact Hq.
    + eexists. reflexivity.
    + exact Hr.
  - rewrite (cell8_body_raised quad i _ exn Hq). simpl. discriminate.
Qed.

(** X6: the names the loop of cell 8 binds outlive it.  After a sweep
    that finished, [i] is the last index, [g] is the float [0.1] times it,
    whatever [g] held before (the array of cell 10 included), [I] is the
    pair the engine returned for that value, [e] is [I[0]/pi] and is the
    last line printed; the array [result] is not touched. *)
Theorem sweep_leaves_last_point (quad : Engine) (pre : list Z) (i : Z) (s s' : Env) :
  sweep_loop quad (pre ++ [i]) s = Done s' ->
  var_i s' = i /\ var_g s' = Num (0.1 * IZR i) /\
  (exists ws, quad (y (0.1 * IZR i)) 0 PI = Return (var_I s') ws) /\
  var_e s' = (1 / PI) * fst (var_I s') /\
  (exists out, stdout s' = out ++ [LNum (var_e s')]) /\
  arr_result s' = arr_result s.
Proof. apply sweep_loop_last. Qed.

Lemma sweep_leaves_last_point_witness :
  exists s',
    sweep_loop Doubles.exhausted ([0%Z] ++ [1%Z]) (set_g (Arr (zeros 21)) fresh)
      = Done s' /\
    var_i s' = 1%Z /\ var_g s' = Num (0.1 * IZR 1) /\
    (exists ws, Doubles.exhausted (y (0.1 * IZR 1)) 0 PI = Return (var_I s') ws) /\
    var_e s' = (1 / PI) * fst (var_I s') /\
    (exists out, stdout s' = out ++ [LNum (var_e s')]) /\
    arr_result s' = arr_result (set_g (Arr (zeros 21)) fresh).
Proof.
  eexists. split; [reflexivity |].
  apply (sweep_leaves_last_point Doubles.exhausted [0%Z] 1%Z
           (set_g (Arr (zeros 21)) fresh)).
  reflexivity.
Defined.

(** ** The sweep has 21 points *)

Lemma length_g_values : List.length g_values = 21%nat.
Proof. reflexivity. Qed.








(** X15: cell 8 does not depend on what earlier cells left in the kernel.
    Started in any two kernels it ends the same way in both: either both
    runs finish, having printed the same 21 lines after the earlier output
    and leaving the same [i = 20], [g = 0.1*20], [I] and [e]; or both stop
    with the same exception after the same lines, at most 20 of them. *)
Theorem cell8_ignores_earlier_state (quad : Engine) (s1 s2 : Env) :
  match cell8 quad s1, cell8 quad s2 with
  | Done a, Done b =>
      var_i a = 20%Z /\ var_i b = 20%Z /\
      var_g a = Num (0.1 * IZR 20) /\ var_g b = var_g a /\
      var_I b = var_I a /\ var_e b = var_e a /\
      exists lines, List.length lines = 21%nat /\
        stdout a = stdout s1 ++ lines /\ stdout b = stdout s2 ++ lines
  | Aborted e1 a, Aborted e2 b =>
      e1 = e2 /\
      exists lines, (List.length lines <= 20)%nat /\
        stdout a = stdout s1 ++ lines /\ stdout b = stdout s2 ++ lines
  | _, _ => False
  end.
Proof.
  destruct (sweep quad g_values) as [l |] eqn:Hl.
  - destruct (sweep_loop_refines quad (range 0 21) s1 l Hl) as (a & Ha & Houta).
    destruct (sweep_loop_refines quad (range 0 21) s2 l Hl) as (b & Hb & Houtb).
    unfold cell8. rewrite Ha, Hb.
    assert (E : range 0 21 = range 0 20 ++ [20%Z]) by reflexivity.
    rewrite E in Ha, Hb.
    destruct (sweep_loop_last quad _ _ _ _ Ha) as (Hia & Hga & [wa HIa] & Hea & _).
    destruct (sweep_loop_last quad _ _ _ _ Hb) as (Hib & Hgb & [wb HIb] & Heb & _).
    assert (HI : var_I b = var_I a).
    { rewrite HIa in HIb. injection HIb as H _. symmetry. exact H. }
    split; [exact Hia |]. split; [exact Hib |]. split; [exact Hga |].
    split; [rewrite Hga; exact Hgb |]. split; [exact HI |].
    split; [rewrite Hea, Heb, HI; reflexivity |].
    exists (lines_of l). split; [| split; assumption].
    unfold lines_of. rewrite length_map, (sweep_length quad _ _ Hl). reflexivity.
  - destruct (sweep_none quad (range 0 21) Hl)
      as (pre & i & post & l & exn & Hidx & Hpre & Hq).
    destruct (sweep_loop_aborts quad pre s1 l i post exn Hpre Hq) as (a & Ha & Houta).
    destruct (sweep_loop_aborts quad pre s2 l i post exn Hpre Hq) as (b & Hb & Houtb).
    unfold cell8. rewrite Hidx, Ha, Hb. split; [reflexivity |].
    exists (lines_of l). split; [| split; assumption].
    unfold lines_of. rewrite length_map, (sweep_length quad _ _ Hpre), length_map.
    pose proof (f_equal (@List.length Z) Hidx) as E.
    rewrite length_range, length_app in E. simpl in E. lia.
Qed.

(** ** The integrand as a function of [g] *)

Lemma integrand_cnorm (g x : R) : integrand g x = cnorm (g - cos x, sin x).
Proof.
  unfold integrand, radicand, cnorm, cnorm2. simpl. f_equal. ring.
Qed.

Lemma integrand_lipschitz (g1 g2 x : R) :
  Rabs (integrand g1 x - integrand g2 x) <= Rabs (g1 - g2).
Proof.
  rewrite !integrand_cnorm, <- (cnorm_real (g1 - g2)).
  replace (g1 - cos x, sin x) with (cadd (g2 - cos x, sin x) (g1 - g2, 0)).
  - apply cnorm_perturb.
  - unfold cadd. simpl. f_equal; ring.
Qed.

Lemma antiderivative_le (h1 h2 H1 H2 : R -> R) (a b : R) :
  antiderivative h1 H1 a b -> antiderivative h2 H2 a b ->
  (forall x, a <= x <= b -> h1 x <= h2 x) ->
  H1 b - H1 a <= H2 b - H2 a.
Proof.
  intros A1 A2 Hh.
  destruct (proj2 A1) as [Hab | Hab].
  - destruct (MVT_cor2 (minus_fct H2 H1) (fun x => h2 x - h1 x) a b Hab) as (c & Hc & Hin).
    + intros x Hx. apply derivable_pt_lim_minus.
      * apply (antiderivative_limit h2 H2 a b x A2 Hx).
      * apply (antiderivative_limit h1 H1 a b x A1 Hx).
    + unfold minus_fct in Hc.
      assert (0 <= (h2 c - h1 c) * (b - a)).
      { apply Rmult_le_pos; [| lra]. specialize (Hh c ltac:(lra)). lra. }
      lra.
  - subst b. lra.
Qed.

Lemma affine_sin_derivative (c1 c2 x : R) :
  derivable_pt_lim (fun t => c1 * t + c2 * sin t) x (c1 + c2 * cos x).
Proof.
  replace (c1 + c2 * cos x) with (c1 * 1 + c2 * cos x) by ring.
  apply (derivable_pt_lim_plus (fun t => c1 * t) (fun t => c2 * sin t)).
  - apply (derivable_pt_lim_scal id c1 x 1), derivable_pt_lim_id.
  - apply (derivable_pt_lim_scal sin c2 x (cos x)), derivable_pt_lim_sin.
Qed.

Lemma affine_sin_antiderivative (c1 c2 : R) :
  antiderivative (fun x => c1 + c2 * cos x) (fun t => c1 * t + c2 * sin t) 0 PI.
Proof.
  split.
  - intros x _. exists (exist _ _ (affine_sin_derivative c1 c2 x)). reflexivity.
  - left. apply PI_RGT_0.
Qed.

(** The integral over [[0, pi]] lies above [c1 * pi] when the integrand
    lies above [c1 + c2 cos x], and below it when the integrand lies
    below. *)
Lemma integral_above (g c1 c2 : R) (F : R -> R) :
  antiderivative (integrand g) F 0 PI ->
  (forall x, c1 + c2 * cos x <= integrand g x) ->
  c1 * PI <= F PI - F 0.
Proof.
  intros HF Hh.
  pose proof (antiderivative_le _ _ _ _ 0 PI (affine_sin_antiderivative c1 c2) HF
                (fun x _ => Hh x)) as H.
  cbv beta in H. rewrite sin_PI, sin_0 in H. lra.
Qed.

Lemma integral_under (g c1 c2 : R) (F : R -> R) :
  antiderivative (integrand g) F 0 PI ->
  (forall x, integrand g x <= c1 + c2 * cos x) ->
  F PI - F 0 <= c1 * PI.
Proof.
  intros HF Hh.
  pose proof (antiderivative_le _ _ _ _ 0 PI HF (affine_sin_antiderivative c1 c2)
                (fun x _ => Hh x)) as H.
  cbv beta in H. rewrite sin_PI, sin_0 in H. lra.
Qed.

(** The square root lies below its tangent at [1 + g^2]. *)
Lemma integrand_tangent (g x : R) :
  integrand g x <= sqrt (1 + g ^ 2) + - (g / sqrt (1 + g ^ 2)) * cos x.
Proof.
  set (c := sqrt (1 + g ^ 2)).
  assert (Hc2 : c * c = 1 + g ^ 2) by (apply sqrt_sqrt; nra).
  assert (Hc : 0 < c) by (apply sqrt_lt_R0; nra).
  pose proof (integrand_nonneg g x) as Hs.
  assert (Hr : integrand g x * integrand g x = radicand g x).
  { apply sqrt_sqrt, radicand_nonneg. }
  rewrite radicand_simplified in Hr. unfold Recorded.simplified_radicand in Hr.
  apply (Rmult_le_reg_r (2 * c)); [lra |].
  replace ((c + - (g / c) * cos x) * (2 * c)) with (2 * (c * c) - 2 * g * cos x)
    by (field; lra).
  nra.
Qed.

Lemma sqrt_sum_squares_ge (a b : R) : Rabs a <= sqrt (a ^ 2 + b ^ 2).
Proof.
  rewrite <- (sqrt_Rsqr_abs a). apply sqrt_le_1.
  - apply Rle_0_sqr.
  - nra.
  - unfold Rsqr. nra.
Qed.

Lemma radicand_dual_form (g x : R) :
  radicand g x = (1 - g * cos x) ^ 2 + (g * sin x) ^ 2.
Proof.
  unfold radicand. pose proof (sin2_cos2 x) as H. unfold Rsqr in H. nra.
Qed.

Lemma integrand_lower (g x : R) :
  Rabs (g - cos x) <= integrand g x /\ Rabs (1 - g * cos x) <= integrand g x /\
  Rabs (sin x) <= integrand g x.
Proof.
  split; [| split].
  - apply sqrt_sum_squares_ge.
  - unfold integrand. rewrite radicand_dual_form. apply sqrt_sum_squares_ge.
  - unfold integrand, radicand. rewrite Rplus_comm. apply sqrt_sum_squares_ge.
Qed.

Lemma integrand_upper (g x : R) : integrand g x <= Rabs g + 1.
Proof.
  rewrite integrand_cnorm.
  replace (g - cos x, sin x) with (cadd (g, 0) (cmul (-1, 0) (cis (- x)))).
  - eapply Rle_trans; [apply cnorm_triangle |].
    rewrite cnorm_real, cnorm_opp, cnorm_cis. lra.
  - unfold cadd, cmul, cis. simpl. rewrite cos_neg, sin_neg. f_equal; ring.
Qed.

(** X7: the energy depends on [g] in a 1-Lipschitz way.  The integrand
    [y] changes by at most [|g1 - g2|] at every [x] when [g] changes from
    [g2] to [g1], so two energies obtained from an engine within [delta]
    of the integrals differ by at most [|g1 - g2| + 2*delta/pi]: a
    rounding error in [g = 0.1*i] moves the energy by no more than
    itself. *)
Theorem energy_lipschitz_in_g :
  (forall g1 g2 x, Rabs (integrand g1 x - integrand g2 x) <= Rabs (g1 - g2)) /\
  (forall (quad : Engine) (delta g1 g2 e1 e2 : R),
     within delta quad (integrand g1) (y g1) 0 PI ->
     within delta quad (integrand g2) (y g2) 0 PI ->
     energy quad g1 = Some e1 -> energy quad g2 = Some e2 ->
     Rabs (e1 - e2) <= Rabs (g1 - g2) + 2 * delta / PI).
Proof.
  split; [exact integrand_lipschitz |].
  intros quad delta g1 g2 e1 e2 H1 H2 He1 He2.
  destruct (integrand_antiderivative_exists g1) as [F1 HF1].
  destruct (integrand_antiderivative_exists g2) as [F2 HF2].
  pose proof (within_energy quad delta g1 e1 F1 H1 HF1 He1) as A1.
  pose proof (within_energy quad delta g2 e2 F2 H2 HF2 He2) as A2.
  pose proof (antiderivative_close _ _ _ _ 0 PI (Rabs (g1 - g2)) HF1 HF2
                (fun x _ => integrand_lipschitz g1 g2 x)) as A.
  assert (HPI : 0 < PI) by apply PI_RGT_0.
  assert (B : Rabs ((F1 PI - F1 0) / PI - (F2 PI - F2 0) / PI) <= Rabs (g1 - g2)).
  { replace ((F1 PI - F1 0) / PI - (F2 PI - F2 0) / PI)
      with ((F1 PI - F1 0 - (F2 PI - F2 0)) * / PI) by (field; lra).
    rewrite Rabs_mult, (Rabs_pos_eq (/ PI)) by (left; apply Rinv_0_lt_compat, HPI).
    apply (Rmult_le_reg_r PI); [exact HPI |].
    rewrite Rmult_assoc, Rinv_l, Rmult_1_r by lra.
    rewrite Rminus_0_r in A. exact A. }
  apply Rabs_within in A1. apply Rabs_within in A2. apply Rabs_within in B.
  apply Rabs_le.
  replace (2 * delta / PI) with (delta / PI + delta / PI) by (field; lra).
  lra.
Qed.

Lemma energy_lipschitz_in_g_witness :
  exists e1 e2,
    energy Doubles.newton 0.3 = Some e1 /\
    energy Doubles.newton 0.30000000000000004 = Some e2 /\
    Rabs (e1 - e2) <= Rabs (0.3 - 0.30000000000000004) + 2 * 0 / PI.
Proof.
  destruct (newton_energy 0.3) as [e1 He1].
  destruct (newton_energy 0.30000000000000004) as [e2 He2].
  exists e1, e2. split; [exact He1 |]. split; [exact He2 |].
  apply (proj2 energy_lipschitz_in_g Doubles.newton 0 0.3 0.30000000000000004 e1 e2).
  - apply newton_within; [lra | apply y_defined_on].
  - apply newton_within; [lra | apply y_defined_on].
  - exact He1.
  - exact He2.
Defined.

(** X8: bounds on the integrand and on the energy, for every real [g].
    The integrand lies between [max(|g - cos x|, |1 - g cos x|)] and
    [|g| + 1]; the energy an engine within [delta] of the integral gives
    lies between [max(1, |g|) - delta/pi] and [sqrt(1 + g^2) + delta/pi]. *)
Theorem energy_bounds :
  (forall g x,
     Rmax (Rabs (g - cos x)) (Rabs (1 - g * cos x)) <= integrand g x <= Rabs g + 1) /\
  (forall (quad : Engine) (delta g e : R),
     within delta quad (integrand g) (y g) 0 PI ->
     energy quad g = Some e ->
     Rmax 1 (Rabs g) - delta / PI <= e <= sqrt (1 + g ^ 2) + delta / PI).
Proof.
  split.
  - intros g x. destruct (integrand_lower g x) as (H1 & H2 & _). split.
    + apply Rmax_lub; assumption.
    + apply integrand_upper.
  - intros quad delta g e Hq He.
    destruct (integrand_antiderivative_exists g) as [F HF].
    pose proof (within_energy quad delta g e F Hq HF He) as A.
    apply Rabs_within in A.
    assert (HPI : 0 < PI) by apply PI_RGT_0.
    assert (L1 : 1 * PI <= F PI - F 0).
    { apply (integral_above g 1 (- g) F HF). intros x.
      destruct (integrand_lower g x) as (_ & H & _).
      pose proof (Rle_abs (1 - g * cos x)). lra. }
    assert (L2 : g * PI <= F PI - F 0).
    { apply (integral_above g g (- 1) F HF). intros x.
      destruct (integrand_lower g x) as (H & _ & _).
      pose proof (Rle_abs (g - cos x)). lra. }
    assert (L3 : (- g) * PI <= F PI - F 0).
    { apply (integral_above g (- g) 1 F HF). intros x.
      destruct (integrand_lower g x) as (H & _ & _).
      pose proof (Rle_abs (- (g - cos x))). rewrite Rabs_Ropp in H0. lra. }
    assert (U : F PI - F 0 <= sqrt (1 + g ^ 2) * PI).
    { apply (integral_under g _ _ F HF (integrand_tangent g)). }
    assert (Lm : Rmax 1 (Rabs g) <= (F PI - F 0) / PI).
    { apply (Rmult_le_reg_r PI); [exact HPI |].
      replace ((F PI - F 0) / PI * PI) with (F PI - F 0) by (field; lra).
      apply Rmax_case; [exact L1 |].
      unfold Rabs. destruct (Rcase_abs g); lra. }
    assert (Um : (F PI - F 0) / PI <= sqrt (1 + g ^ 2)).
    { apply (Rmult_le_reg_r PI); [exact HPI |].
      replace ((F PI - F 0) / PI * PI) with (F PI - F 0) by (field; lra).
      exact U. }
    lra.
Qed.

Lemma energy_bounds_witness :
  exists e, energy Doubles.newton 0.5 = Some e /\
    Rmax 1 (Rabs 0.5) - 0 / PI <= e <= sqrt (1 + 0.5 ^ 2) + 0 / PI.
Proof.
  destruct (newton_energy 0.5) as [e He].
  exists e. split; [exact He |].
  apply (proj2 energy_bounds Doubles.newton 0 0.5 e).
  - apply newton_within; [lra | apply y_defined_on].
  - exact He.
Defined.

(** ** Symmetries *)

Lemma cos_PI_minus (x : R) : cos (PI - x) = - cos x.
Proof. rewrite cos_minus, cos_PI, sin_PI. ring. Qed.

Lemma sin_PI_minus (x : R) : sin (PI - x) = sin x.
Proof. rewrite sin_minus, cos_PI, sin_PI. ring. Qed.

Lemma integrand_reflect (g x : R) : integrand (- g) x = integrand g (PI - x).
Proof.
  unfold integrand, radicand. rewrite cos_PI_minus, sin_PI_minus. f_equal. ring.
Qed.

Lemma reflected_derivative (F : R -> R) (x l : R) :
  derivable_pt_lim F (PI - x) l ->
  derivable_pt_lim (fun t => - F (PI - t)) x l.
Proof.
  intros HF.
  assert (D1 : derivable_pt_lim (fun t => PI - t) x (0 - 1)).
  { apply (derivable_pt_lim_minus (fct_cte PI) id).
    - apply derivable_pt_lim_const.
    - apply derivable_pt_lim_id. }
  pose proof (derivable_pt_lim_comp (fun t => PI - t) F x (0 - 1) l D1 HF) as D2.
  pose proof (derivable_pt_lim_opp _ x _ D2) as D3.
  replace l with (- (l * (0 - 1))) by ring. exact D3.
Qed.

Lemma reflected_antiderivative (g : R) (F : R -> R) :
  antiderivative (integrand g) F 0 PI ->
  antiderivative (integrand (- g)) (fun t => - F (PI - t)) 0 PI.
Proof.
  intros HF. split; [| exact (proj2 HF)].
  intros x Hx.
  assert (D : derivable_pt_lim (fun t => - F (PI - t)) x (integrand (- g) x)).
  { rewrite integrand_reflect. apply reflected_derivative.
    apply (antiderivative_limit (integrand g) F 0 PI); [exact HF | lra]. }
  exists (exist _ _ D). reflexivity.
Qed.

Lemma exact_energy (quad : Engine) (g : R) (F : R -> R) :
  exact_at quad (integrand g) (y g) 0 PI ->
  antiderivative (integrand g) F 0 PI ->
  energy quad g = Some ((1 / PI) * (F PI - F 0)).
Proof.
  intros Hq HF. destruct (Hq F HF) as (err & ws & H).
  rewrite (energy_returned quad g _ _ H). reflexivity.
Qed.

(** X9: the energy is an even function of [g].  The integrand at [-g]
    is the integrand at [g] reflected about [pi/2], so an engine that
    returns the integral gives the same energy for [-g] and [g]. *)
Theorem energy_even_in_g (quad : Engine) (g : R) :
  exact_at quad (integrand g) (y g) 0 PI ->
  exact_at quad (integrand (- g)) (y (- g)) 0 PI ->
  (forall x, y (- g) x = y g (PI - x)) /\
  energy quad (- g) = energy quad g.
Proof.
  intros Hp Hm. split.
  - intros x. rewrite !y_defined, integrand_reflect. reflexivity.
  - destruct (integrand_antiderivative_exists g) as [F HF].
    rewrite (exact_energy quad g F Hp HF).
    rewrite (exact_energy quad (- g) _ Hm (reflected_antiderivative g F HF)).
    do 2 f_equal. rewrite !Rminus_diag, Rminus_0_r. ring.
Qed.

Lemma energy_even_in_g_witness :
  (forall x, y (- (0.5)) x = y 0.5 (PI - x)) /\
  energy Doubles.newton (- (0.5)) = energy Doubles.newton 0.5.
Proof.
  apply (energy_even_in_g Doubles.newton 0.5).
  - apply newton_exact, y_defined_on.
  - apply newton_exact, y_defined_on.
Defined.

Lemma integrand_dual (g x : R) : 0 < g -> integrand g x = g * integrand (/ g) x.
Proof.
  intros Hg. unfold integrand.
  rewrite <- (sqrt_Rsqr g) at 2 by lra.
  rewrite <- sqrt_mult by (try apply Rle_0_sqr; apply radicand_nonneg).
  f_equal. rewrite (radicand_dual_form g x). unfold radicand, Rsqr. field. lra.
Qed.

(** X10: duality.  For [g > 0] the integrand at [g] is [g] times the
    integrand at [1/g], so with an engine that returns the integral the
    energy at [g] is [g] times the energy at [1/g] (the sweep samples the
    pair [g = 2.0], [g = 0.5]). *)
Theorem energy_dual (quad : Engine) (g e e' : R) :
  0 < g ->
  exact_at quad (integrand g) (y g) 0 PI ->
  exact_at quad (integrand (/ g)) (y (/ g)) 0 PI ->
  energy quad g = Some e -> energy quad (/ g) = Some e' ->
  (forall x, integrand g x = g * integrand (/ g) x) /\ e = g * e'.
Proof.
  intros Hg Hq Hq' He He'. split.
  - intros x. apply integrand_dual, Hg.
  - destruct (integrand_antiderivative_exists (/ g)) as [F HF].
    assert (HG : antiderivative (integrand g) (fun x => g * F x) 0 PI).
    { apply (antiderivative_ext _ (fun x => g * integrand (/ g) x)).
      - intros x _. apply integrand_dual, Hg.
      - apply scaled_antiderivative, HF. }
    rewrite (exact_energy quad g _ Hq HG) in He.
    rewrite (exact_energy quad (/ g) F Hq' HF) in He'.
    injection He as <-. injection He' as <-. ring.
Qed.

Lemma energy_dual_witness :
  exists e e',
    energy Doubles.newton 2 = Some e /\ energy Doubles.newton (/ 2) = Some e' /\
    (forall x, integrand 2 x = 2 * integrand (/ 2) x) /\ e = 2 * e'.
Proof.
  destruct (newton_energy 2) as [e He].
  destruct (newton_energy (/ 2)) as [e' He'].
  exists e, e'. split; [exact He |]. split; [exact He' |].
  apply (energy_dual Doubles.newton 2 e e').
  - lra.
  - apply newton_exact, y_defined_on.
  - apply newton_exact, y_defined_on.
  - exact He.
  - exact He'.
Defined.

(** X11: where the integrand vanishes.  It is at least [|sin x|], and it
    is zero exactly when [sin x = 0] and [cos x = g]; on the interval of
    integration [[0, pi]] that happens only at [x = 0] for [g = 1] and at
    [x = pi] for [g = -1].  For every other [g] the integrand is positive
    on the whole interval. *)
Theorem integrand_zero_set (g x : R) :
  Rabs (sin x) <= integrand g x /\
  (integrand g x = 0 <-> sin x = 0 /\ cos x = g) /\
  (0 <= x <= PI -> integrand g x = 0 -> (g = 1 /\ x = 0) \/ (g = - 1 /\ x = PI)).
Proof.
  assert (Hiff : integrand g x = 0 <-> sin x = 0 /\ cos x = g).
  { split.
    - intros H.
      destruct (integrand_lower g x) as (H1 & _ & H3). rewrite H in H1, H3.
      split.
      + pose proof (Rabs_pos (sin x)).
        destruct (Req_dec (sin x) 0) as [E | E]; [exact E |].
        apply Rabs_no_R0 in E. lra.
      + pose proof (Rabs_pos (g - cos x)).
        destruct (Req_dec (g - cos x) 0) as [E | E]; [lra |].
        apply Rabs_no_R0 in E. lra.
    - intros [Hs Hc]. unfold integrand, radicand. rewrite Hs, Hc.
      replace ((g - g) ^ 2 + 0 ^ 2) with 0 by ring. apply sqrt_0. }
  split; [apply integrand_lower |]. split; [exact Hiff |].
  intros Hx H. apply Hiff in H. destruct H as [Hs Hc].
  pose proof PI_RGT_0 as HPI.
  destruct (sin_eq_O_2PI_0 x ltac:(lra) ltac:(lra) Hs) as [E | [E | E]].
  - left. subst x. rewrite cos_0 in Hc. split; [lra | reflexivity].
  - right. subst x. rewrite cos_PI in Hc. split; [lra | reflexivity].
  - lra.
Qed.

Lemma integrand_zero_set_witness :
  (0 <= 0 <= PI /\ integrand 1 0 = 0) /\
  ((1 = 1 /\ 0 = 0) \/ (1 = - 1 /\ 0 = PI)).
Proof.
  assert (H0 : integrand 1 0 = 0).
  { apply (proj1 (proj2 (integrand_zero_set 1 0))).
    split; [apply sin_0 | apply cos_0]. }
  assert (Hx : 0 <= 0 <= PI) by (pose proof PI_RGT_0; lra).
  split; [split; [exact Hx | exact H0] |].
  exact (proj2 (proj2 (integrand_zero_set 1 0)) Hx H0).
Defined.

(** ** Strict growth over the sampled range *)

Lemma apart_nth (m : Q) (l : list Q) :
  apart m l = true ->
  forall (k n : nat) (a b : Q), (k < n)%nat ->
    nth_error l k = Some a -> nth_error l n = Some b ->
    (a + rel6 * a + m <= b - rel6 * b)%Q.
Proof.
  induction l as [| x t IH]; intros H k n a b Hkn Hk Hn.
  - destruct k; discriminate.
  - simpl in H. apply andb_prop in H. destruct H as [Hx Ht].
    destruct n as [| n]; [lia |]. simpl in Hn.
    destruct k as [| k].
    + simpl in Hk. injection Hk as <-.
      unfold apart_from in Hx. rewrite forallb_forall in Hx.
      apply Qle_bool_iff, Hx. apply (nth_error_In _ _ Hn).
    + simpl in Hk. apply (IH Ht k n a b); [lia | exact Hk | exact Hn].
Qed.

Lemma reference_apart : apart least_step reference_sequence = true.
Proof. vm_compute. reflexivity. Qed.

Lemma Q2R_least_step : Q2R least_step = 0.002.
Proof. unfold least_step, Q2R. cbn [Qnum Qden]. lra. Qed.

(** X12: with an engine within [1e-6] of the integrals, the energies of
    the sweep increase strictly over the whole sampled range, each one
    exceeding every earlier one by at least [0.002]. *)
Theorem sweep_strictly_increasing (quad : Engine) (i j : Z) (e1 e2 : R) :
  tolerant 1e-6 quad -> (0 <= i)%Z -> (i < j)%Z -> (j <= 20)%Z ->
  energy quad (0.1 * IZR i) = Some e1 ->
  energy quad (0.1 * IZR j) = Some e2 ->
  e1 + 0.002 <= e2.
Proof.
  intros Hq Hi Hij Hj He1 He2.
  destruct (tolerant_energy quad i e1 Hq ltac:(lia) He1) as (r1 & Hr1 & H1).
  destruct (tolerant_energy quad j e2 Hq ltac:(lia) He2) as (r2 & Hr2 & H2).
  pose proof (apart_nth least_step reference_sequence reference_apart
                (Z.to_nat i) (Z.to_nat j) r1 r2 ltac:(lia) Hr1 Hr2) as Hsep.
  apply Qle_Rle in Hsep.
  rewrite !Q2R_plus, Q2R_minus, !Q2R_mult, Q2R_rel6, Q2R_least_step in Hsep.
  apply Rabs_within in H1. apply Rabs_within in H2. lra.
Qed.

Lemma sweep_strictly_increasing_witness :
  exists e1 e2,
    energy Doubles.newton (0.1 * IZR 0) = Some e1 /\
    energy Doubles.newton (0.1 * IZR 1) = Some e2 /\
    e1 + 0.002 <= e2.
Proof.
  destruct (newton_energy (0.1 * IZR 0)) as [e1 He1].
  destruct (newton_energy (0.1 * IZR 1)) as [e2 He2].
  exists e1, e2. split; [exact He1 |]. split; [exact He2 |].
  apply (sweep_strictly_increasing Doubles.newton 0 1 e1 e2 newton_tolerant);
    [lia | lia | lia | exact He1 | exact He2].
Defined.

(** ** Names

    X13: the three numeric cells are self-contained.  Each of cells 6, 8
    and 10 imports or binds every name it looks up, so in no namespace,
    the empty one of a fresh kernel included, does one of them stop on an
    unbound name. *)
Theorem numeric_cells_self_contained (ns : list string) :
  (exists ns', Names.exec_cell ns Names.cell6 = Names.Ran ns') /\
  (exists ns', Names.exec_cell ns Names.cell8 = Names.Ran ns') /\
  (exists ns', Names.exec_cell ns Names.cell10 = Names.Ran ns').
Proof.
  repeat split; eexists; vm_compute; reflexivity.
Qed.

(** X14: the two symbolic cells are not self-contained.  Cells 2 and 4
    call [sqrt], [cos] and [sin] but import only [sympy as sym]: in every
    namespace where [sqrt] is unbound each stops with a NameError on
    [sqrt], so the notebook run in order in a fresh kernel stops at its
    first code cell.  After any one of the numeric cells, which import
    the three names, cells 2 and 4 find every name they look up. *)
Theorem symbolic_cells_need_earlier_imports :
  (forall ns, Names.bound ns "sqrt" = false ->
     Names.exec_cell ns Names.cell2 = Names.NameError "sqrt" /\
     Names.exec_cell ns Names.cell4 = Names.NameError "sqrt") /\
  Names.run_all Names.notebook = Names.Stopped 0 "sqrt" /\
  (forall ns c, In c [Names.cell6; Names.cell8; Names.cell10] ->
     exists ns1 ns2 ns3,
       Names.exec_cell ns c = Names.Ran ns1 /\
       Names.exec_cell ns1 Names.cell2 = Names.Ran ns2 /\
       Names.exec_cell ns2 Names.cell4 = Names.Ran ns3).
Proof.
  split; [| split].
  - intros ns H. vm_compute in H.
    split; vm_compute; rewrite H; reflexivity.
  - reflexivity.
  - intros ns c [<- | [<- | [<- | []]]];
      eexists; eexists; eexists; (split; [| split]); vm_compute; reflexivity.
Qed.

Lemma symbolic_cells_need_earlier_imports_witness :
  Names.bound [] "sqrt" = false /\
  Names.exec_cell [] Names.cell2 = Names.NameError "sqrt" /\
  Names.exec_cell [] Names.cell4 = Names.NameError "sqrt".
Proof.
  split; [reflexivity |].
  exact (proj1 symbolic_cells_need_earlier_imports [] eq_refl).
Defined.
